(** * Semian::Simple::SlidingWindow: the shared-memory sliding window

    A shallow embedding of [ext/semian/sliding_window.c] and the
    properties of its circular buffer.

    The C functions become computations in a small monad [M] over the
    machine state (the shared record and the semaphore).  A computation
    ends in one of four ways: it returns, it leaves through [rb_raise]
    (a non-local exit that keeps the state as it is at that point), it
    waits for ever on the semaphore, or it runs into behaviour that C
    leaves undefined (division by zero, signed overflow, an array index
    outside the array, the conversion of a [double] that does not fit an
    [int]). *)

From Stdlib Require Import ZArith Lia.
From stdpp Require Import base numbers list strings pretty.

Local Open Scope Z_scope.

(** ** C integers *)

Definition INT_MIN : Z := -2147483648.
Definition INT_MAX : Z := 2147483647.

Definition in_int (z : Z) : bool := (INT_MIN <=? z) && (z <=? INT_MAX).

(** What C leaves undefined and this file keeps track of. *)
Inductive undefined_behaviour : Type :=
| DivisionByZero
| SignedOverflow
| OutOfBounds (index : Z)
| FloatToInt.   (* (int) of a double whose integral part is no int *)

(** A C [double]: a finite one is [mantissa * 2 ^ exponent]. *)
Inductive double : Type :=
| Finite (mantissa exponent : Z)
| Infinite (negative : bool)
| NaN.

(** The integral part of a [double], which a conversion to an integer
    type keeps: the fraction is discarded, towards zero. *)
Definition truncate (d : double) : option Z :=
  match d with
  | Finite m e => Some (if 0 <=? e then m * 2 ^ e else Z.quot m (2 ^ (- e)))
  | _ => None
  end.

(** [(int) d] *)
Definition int_of_double (d : double) : option Z :=
  match truncate d with
  | Some z => if in_int z then Some z else None
  | None => None
  end.

(** ** Ruby values and exceptions *)

Inductive exception : Type :=
| rb_eArgError (msg : string)
| rb_eRangeError
| rb_eTypeError
| rb_eLocalJumpError
| rb_eStandardError.

(** What [to_int] does on a value that has this method and is neither an
    Integer nor a Float: it gives an Integer or raises (a result that is
    no Integer is a TypeError).  [to_int] is taken to leave the window
    alone. *)
Inductive to_int_result : Type :=
| Gives (z : Z)
| Fails (e : exception).

Inductive VALUE : Type :=
| Qnil
| Qfalse
| Qtrue
| Integer (z : Z)
| Object                                (* a value without [to_int], such as [Object.new] *)
| Float (d : double)
| Convertible (to_int : to_int_result). (* any other value with [to_int] *)

(** [RTEST]: everything but [nil] and [false] is true. *)
Definition RTEST (v : VALUE) : bool :=
  match v with
  | Qnil | Qfalse => false
  | _ => true
  end.

Definition RB_INT2NUM (i : Z) : VALUE := Integer i.

(** What a block does with the value it is given: it returns a value or
    raises. *)
Inductive yielded : Type :=
| Returns (y : VALUE)
| Throws (e : exception).

Definition block : Type := VALUE → yielded.

(** ** The shared record and the machine state *)

(** [semian_simple_sliding_window_shared_t]; the fields carry a prefix
    because [length] and [end] are taken. *)
Record semian_simple_sliding_window_shared_t : Type := {
  w_max_size : Z;
  w_length : Z;
  w_start : Z;
  w_end : Z;
  w_data : list Z;
}.

Abbreviation shared_t := semian_simple_sliding_window_shared_t.

Definition set_max_size (v : Z) (w : shared_t) : shared_t :=
  {| w_max_size := v; w_length := w_length w; w_start := w_start w;
     w_end := w_end w; w_data := w_data w |}.
Definition set_length (v : Z) (w : shared_t) : shared_t :=
  {| w_max_size := w_max_size w; w_length := v; w_start := w_start w;
     w_end := w_end w; w_data := w_data w |}.
Definition set_start (v : Z) (w : shared_t) : shared_t :=
  {| w_max_size := w_max_size w; w_length := w_length w; w_start := v;
     w_end := w_end w; w_data := w_data w |}.
Definition set_end (v : Z) (w : shared_t) : shared_t :=
  {| w_max_size := w_max_size w; w_length := w_length w; w_start := w_start w;
     w_end := v; w_data := w_data w |}.
Definition set_data (d : list Z) (w : shared_t) : shared_t :=
  {| w_max_size := w_max_size w; w_length := w_length w; w_start := w_start w;
     w_end := w_end w; w_data := d |}.

(** The segment behind [get_window (res->key)] and the semaphore behind
    [res->sem_id]: [sem_held] says that some caller is inside the
    critical section. *)
Record machine : Type := {
  shm : shared_t;
  sem_held : bool;
}.

Definition with_shm (f : shared_t → shared_t) (m : machine) : machine :=
  {| shm := f (shm m); sem_held := sem_held m |}.

(** ** The monad *)

Inductive result (A : Type) : Type :=
| Done (a : A) (m : machine)
| Raised (e : exception) (m : machine)
| Blocked
| Undefined (u : undefined_behaviour).

Arguments Done {A} a m.
Arguments Raised {A} e m.
Arguments Blocked {A}.
Arguments Undefined {A} u.

Definition M (A : Type) : Type := machine → result A.

Definition ret {A} (a : A) : M A := λ m, Done a m.

Definition bind {A B} (x : M A) (f : A → M B) : M B :=
  λ m, match x m with
       | Done a m' => f a m'
       | Raised e m' => Raised e m'
       | Blocked => Blocked
       | Undefined u => Undefined u
       end.

Notation "'let*' x := e 'in' k" := (bind e (λ x, k))
  (at level 10, x name, e at level 200, k at level 200).
Notation "e >> k" := (bind e (λ _, k))
  (at level 100, k at level 200, right associativity).

Definition rb_raise {A} (e : exception) : M A := λ m, Raised e m.
Definition undefined {A} (u : undefined_behaviour) : M A := λ _, Undefined u.

(** Reads and writes through the [window] pointer. *)
Definition rd (f : shared_t → Z) : M Z := λ m, Done (f (shm m)) m.
Definition wr (set : Z → shared_t → shared_t) (v : Z) : M unit :=
  λ m, Done tt (with_shm (set v) m).

(** [int] arithmetic; C's [%] truncates towards zero, which is [Z.rem]. *)
Definition int_of (z : Z) : M Z :=
  if in_int z then ret z else undefined SignedOverflow.
Definition int_add (a b : Z) : M Z := int_of (a + b).
Definition int_sub (a b : Z) : M Z := int_of (a - b).
Definition int_rem (a b : Z) : M Z :=
  if b =? 0 then undefined DivisionByZero
  else if (a =? INT_MIN) && (b =? -1) then undefined SignedOverflow
  else ret (Z.rem a b).

(** [window->data[index]], as a read and as a write. *)
Definition data_load (index : Z) : M Z :=
  λ m, if index <? 0 then Undefined (OutOfBounds index)
       else match w_data (shm m) !! Z.to_nat index with
            | Some v => Done v m
            | None => Undefined (OutOfBounds index)
            end.

Definition data_store (index v : Z) : M unit :=
  λ m, if index <? 0 then Undefined (OutOfBounds index)
       else match w_data (shm m) !! Z.to_nat index with
            | Some _ =>
                Done tt (with_shm (set_data (<[Z.to_nat index := v]> (w_data (shm m)))) m)
            | None => Undefined (OutOfBounds index)
            end.

(** ** What the file takes from Ruby and from sysv_semaphores.c *)

(** What [RB_NUM2INT] makes of a value ([rb_num2long], then the check
    against the range of [int]): an Integer converts if it fits an [int]
    and is a RangeError if not; so does the integral part of a Float, and
    a Float without one (an infinity, a NaN) is a RangeError; a value
    with [to_int] converts as the Integer this gives; [nil], a boolean
    and a value without [to_int] are a TypeError. *)
Definition rb_num2int (v : VALUE) : Z + exception :=
  match v with
  | Integer z => if in_int z then inl z else inr rb_eRangeError
  | Float d =>
      match truncate d with
      | Some z => if in_int z then inl z else inr rb_eRangeError
      | None => inr rb_eRangeError
      end
  | Convertible (Gives z) => if in_int z then inl z else inr rb_eRangeError
  | Convertible (Fails e) => inr e
  | Qnil | Qfalse | Qtrue | Object => inr rb_eTypeError
  end.

Definition RB_NUM2INT (v : VALUE) : M Z :=
  match rb_num2int v with
  | inl z => ret z
  | inr e => rb_raise e
  end.

(** The exception [RB_NUM2INT] raises on [v], if any. *)
Definition conversion_error (v : VALUE) : option exception :=
  match rb_num2int v with
  | inl _ => None
  | inr e => Some e
  end.

(** [rb_warn] writes to the standard error, which the machine state does
    not hold. *)
Definition rb_warn (msg : string) : M unit := ret tt.

(** [(int) d] on a [double]: undefined where the integral part of [d] is
    no [int]. *)
Definition int_cast (d : double) : M Z :=
  match int_of_double d with
  | Some z => ret z
  | None => undefined FloatToInt
  end.

(** [rb_yield]: the block's exception leaves the C function at once. *)
Definition rb_yield (blk : block) (v : VALUE) : M VALUE :=
  match blk v with
  | Returns y => ret y
  | Throws e => rb_raise e
  end.

Definition rb_need_block (blk : option block) : M block :=
  match blk with
  | Some b => ret b
  | None => rb_raise rb_eLocalJumpError
  end.

(** [rb_ary_new_capa (capa)]: an empty array; a negative capacity is an
    ArgumentError (an [int] is never above Ruby's maximum where [long]
    has 64 bits). *)
Definition rb_ary_new_capa (capa : Z) : M (list VALUE) :=
  if capa <? 0 then rb_raise (rb_eArgError "negative array size (or size too big)")
  else ret [].

(** [rb_ary_store (ary, i, v)]: Ruby pads with [nil] beyond the end. *)
Definition rb_ary_store (ary : list VALUE) (i : Z) (v : VALUE) : list VALUE :=
  if (Z.to_nat i <? length ary)%nat then <[Z.to_nat i := v]> ary
  else ary ++ replicate (Z.to_nat i - length ary)%nat Qnil ++ [v].

(** Modelled from the spec: [sem_meta_lock] and [sem_meta_unlock] of
    sysv_semaphores.c are absent.  Section 4.3: acquire blocks the caller
    until the lock is free, release frees it. *)
Definition sem_meta_lock : M unit :=
  λ m, if sem_held m then Blocked
       else Done tt {| shm := shm m; sem_held := true |}.

Definition sem_meta_unlock : M unit :=
  λ m, Done tt {| shm := shm m; sem_held := false |}.

(** ** sliding_window.c

    [get_window (res->key)] attaches the segment, which is the [shm] of
    the machine state; its failure (the ArgumentError after [shmget] or
    [shmat]) is left out.  The functions return [self], which the
    computations leave out as well. *)

Section SlidingWindow.

(** The dimension of [data] in sliding_window.h, which is absent. *)
Variable SLIDING_WINDOW_MAX_SIZE : Z.

(** [check_max_size_arg]; the switch is on [TYPE (max_size)], and [%d]
    prints [SLIDING_WINDOW_MAX_SIZE] in decimal. *)
Definition check_max_size_arg (max_size : VALUE) : M Z :=
  let* retval :=
    match max_size with
    | Qnil => ret SLIDING_WINDOW_MAX_SIZE
    | Float d =>
        rb_warn "semian sliding window max_size is a float, converting to fixnum" >>
        int_cast d
    | _ => RB_NUM2INT max_size
    end in
  if retval <=? 0 then
    rb_raise (rb_eArgError "max_size must be greater than zero")
  else if retval >? SLIDING_WINDOW_MAX_SIZE then
    rb_raise (rb_eArgError
                ("max_size cannot be greater than " +:+ pretty SLIDING_WINDOW_MAX_SIZE))
  else ret retval.

(** [semian_simple_sliding_window_initialize]; the name only selects the
    segment, and [initialize_single_semaphore] creates the semaphore. *)
Definition semian_simple_sliding_window_initialize (max_size : VALUE) : M unit :=
  let* checked := check_max_size_arg max_size in
  wr set_max_size checked >>
  wr set_length 0 >>
  wr set_start 0 >>
  wr set_end 0.

Definition semian_simple_sliding_window_size : M VALUE :=
  sem_meta_lock >>
  let* len := rd w_length in
  let retval := RB_INT2NUM len in
  sem_meta_unlock >>
  ret retval.

Definition semian_simple_sliding_window_max_size : M VALUE :=
  sem_meta_lock >>
  let* cap := rd w_max_size in
  let retval := RB_INT2NUM cap in
  sem_meta_unlock >>
  ret retval.

(** The loop of [values]: [n] iterations are left, [i] is the counter.
    [++i] cannot overflow, [i] being below [window->length]. *)
Fixpoint values_loop (n : nat) (i : Z) (retval : list VALUE) : M (list VALUE) :=
  match n with
  | O => ret retval
  | S n' =>
      let* start := rd w_start in
      let* sum := int_add start i in
      let* max_size := rd w_max_size in
      let* index := int_rem sum max_size in
      let* value := data_load index in
      values_loop n' (i + 1) (rb_ary_store retval i (RB_INT2NUM value))
  end.

Definition semian_simple_sliding_window_values : M (list VALUE) :=
  sem_meta_lock >>
  let* len := rd w_length in
  let* retval := rb_ary_new_capa len in
  let* retval := values_loop (Z.to_nat len) 0 retval in
  sem_meta_unlock >>
  ret retval.

Definition semian_simple_sliding_window_last : M VALUE :=
  sem_meta_lock >>
  let* start := rd w_start in
  let* len := rd w_length in
  let* sum := int_add start len in
  let* sum1 := int_sub sum 1 in
  let* max_size := rd w_max_size in
  let* index := int_rem sum1 max_size in
  let* value := data_load index in
  let retval := RB_INT2NUM value in
  sem_meta_unlock >>
  ret retval.

Definition semian_simple_sliding_window_clear : M unit :=
  sem_meta_lock >>
  wr set_length 0 >>
  wr set_start 0 >>
  wr set_end 0 >>
  sem_meta_unlock.

Definition semian_simple_sliding_window_push (value : VALUE) : M unit :=
  sem_meta_lock >>
  let* len := rd w_length in
  let* max_size := rd w_max_size in
  (if len =? max_size then
     let* len := rd w_length in
     let* len' := int_sub len 1 in
     wr set_length len' >>
     let* start := rd w_start in
     let* start1 := int_add start 1 in
     let* max_size := rd w_max_size in
     let* start' := int_rem start1 max_size in
     wr set_start start'
   else ret tt) >>
  let* index := rd w_end in
  let* len := rd w_length in
  let* len' := int_add len 1 in
  wr set_length len' >>
  let* v := RB_NUM2INT value in
  data_store index v >>
  let* e := rd w_end in
  let* e1 := int_add e 1 in
  let* max_size := rd w_max_size in
  let* e' := int_rem e1 max_size in
  wr set_end e' >>
  sem_meta_unlock.

(** The locals of [semian_simple_sliding_window_reject]: [start] and
    [length] are copied from the window before the loop and never written
    again. *)
Record reject_locals : Type := {
  l_start : Z;
  l_length : Z;
  l_cleared : Z;
  l_i : Z;
}.

(** [int index = (start + i) % length;] *)
Definition reject_index (l : reject_locals) : M Z :=
  let* sum := int_add (l_start l) (l_i l) in
  int_rem sum (l_length l).

(** One turn of the loop body, [++i] included. *)
Definition reject_iteration (blk : block) (l : reject_locals) : M reject_locals :=
  let* index := reject_index l in
  let* value := data_load index in
  let* y := rb_yield blk (RB_INT2NUM value) in
  let* cleared :=
    if RTEST y then
      let* cleared' := int_add (l_cleared l) 1 in
      (if negb (l_cleared l =? l_i l) then
         sem_meta_unlock >>
         rb_raise (rb_eArgError "reject! must delete monotonically")
       else ret tt) >>
      let* wstart := rd w_start in
      let* wstart1 := int_add wstart 1 in
      let* wlength := rd w_length in
      let* start' := int_rem wstart1 wlength in
      wr set_start start' >>
      let* wlength := rd w_length in
      let* wlength' := int_sub wlength 1 in
      wr set_length wlength' >>
      ret cleared'
    else ret (l_cleared l) in
  ret {| l_start := l_start l; l_length := l_length l;
         l_cleared := cleared; l_i := l_i l + 1 |}.

(** [n] turns of the loop from the locals [l]. *)
Fixpoint reject_loop (n : nat) (blk : block) (l : reject_locals) : M reject_locals :=
  match n with
  | O => ret l
  | S n' =>
      let* l' := reject_iteration blk l in
      reject_loop n' blk l'
  end.

Definition reject_entry (w : shared_t) : reject_locals :=
  {| l_start := w_start w; l_length := w_length w; l_cleared := 0; l_i := 0 |}.

Definition semian_simple_sliding_window_reject (blk : option block) : M unit :=
  let* b := rb_need_block blk in
  sem_meta_lock >>
  let* start := rd w_start in
  let* len := rd w_length in
  reject_loop (Z.to_nat len) b
    {| l_start := start; l_length := len; l_cleared := 0; l_i := 0 |} >>
  sem_meta_unlock.

(** ** Sequences of calls *)

Inductive call : Type :=
| Initialize (max_size : VALUE)
| Size
| MaxSize
| Values
| Last
| Push (value : VALUE)
| Clear
| Reject (blk : option block).

Definition perform (c : call) : M unit :=
  match c with
  | Initialize max_size => semian_simple_sliding_window_initialize max_size
  | Size => semian_simple_sliding_window_size >> ret tt
  | MaxSize => semian_simple_sliding_window_max_size >> ret tt
  | Values => semian_simple_sliding_window_values >> ret tt
  | Last => semian_simple_sliding_window_last >> ret tt
  | Push value => semian_simple_sliding_window_push value
  | Clear => semian_simple_sliding_window_clear
  | Reject blk => semian_simple_sliding_window_reject blk
  end.

(** The states a caller passes through: an exception is rescued and the
    next call sees the state the raise left; a call that blocks or whose
    behaviour is undefined ends the sequence. *)
Fixpoint states (cs : list call) (m : machine) : list machine :=
  match cs with
  | [] => []
  | c :: cs' =>
      match perform c m with
      | Done _ m' | Raised _ m' => m' :: states cs' m'
      | Blocked | Undefined _ => []
      end
  end.

(** The state after a sequence of calls that all return. *)
Fixpoint perform_all (cs : list call) : M unit :=
  match cs with
  | [] => ret tt
  | c :: cs' => perform c >> perform_all cs'
  end.

(** ** The logical view of a window *)

(** The sample at logical position [i]. *)
Definition sample (w : shared_t) (i : Z) : Z :=
  w_data w !!! Z.to_nat ((w_start w + i) `mod` w_max_size w).

Definition window_values (w : shared_t) : list Z :=
  sample w <$> seqZ 0 (w_length w).

(** What the operations keep: the bounds of section 3 of the
    specification, without the equation on [end]. *)
Record bounded (w : shared_t) : Prop := {
  bounded_max_size : 1 ≤ w_max_size w ≤ SLIDING_WINDOW_MAX_SIZE;
  bounded_length : 0 ≤ w_length w ≤ w_max_size w;
  bounded_start : 0 ≤ w_start w < w_max_size w;
  bounded_end : 0 ≤ w_end w < w_max_size w;
  bounded_data : Z.of_nat (length (w_data w)) = SLIDING_WINDOW_MAX_SIZE;
}.

(** The invariant of section 3: the bounds and the place of [end]. *)
Definition consistent (w : shared_t) : Prop :=
  bounded w ∧ w_end w = (w_start w + w_length w) `mod` w_max_size w.

(** The window a successful [push] of [v] leaves. *)
Definition pushed (v : Z) (w : shared_t) : shared_t :=
  let full := w_length w =? w_max_size w in
  {| w_max_size := w_max_size w;
     w_length := (if full then w_length w - 1 else w_length w) + 1;
     w_start := if full then (w_start w + 1) `mod` w_max_size w else w_start w;
     w_end := (w_end w + 1) `mod` w_max_size w;
     w_data := <[Z.to_nat (w_end w) := v]> (w_data w) |}.

(** The window a [push] leaves when the conversion of its argument
    raises: the eviction and [length++] are done, the store and the
    advance of [end] are not. *)
Definition push_interrupted (w : shared_t) : shared_t :=
  let full := w_length w =? w_max_size w in
  {| w_max_size := w_max_size w;
     w_length := (if full then w_length w - 1 else w_length w) + 1;
     w_start := if full then (w_start w + 1) `mod` w_max_size w else w_start w;
     w_end := w_end w;
     w_data := w_data w |}.

(** The last [c] elements of a list. *)
Definition trim (c : Z) (l : list Z) : list Z :=
  drop (length l - Z.to_nat c) l.

(** A sequence of pushes of integers. *)
Definition pushes (vs : list Z) : list call := (λ v, Push (Integer v)) <$> vs.

(** The window [initialize] leaves. *)
Definition initialized (c : Z) (w : shared_t) : shared_t :=
  {| w_max_size := c; w_length := 0; w_start := 0; w_end := 0; w_data := w_data w |}.

Definition unlocked (w : shared_t) : machine := {| shm := w; sem_held := false |}.
Definition locked (w : shared_t) : machine := {| shm := w; sem_held := true |}.

End SlidingWindow.

(** ** What reject! sees and does *)

(** The block takes the sample, or leaves it. *)
Definition accepts (blk : block) (v : Z) : bool :=
  match blk (RB_INT2NUM v) with
  | Returns y => RTEST y
  | Throws _ => false
  end.

Definition refuses (blk : block) (v : Z) : bool :=
  match blk (RB_INT2NUM v) with
  | Returns y => negb (RTEST y)
  | Throws _ => false
  end.

(** The sample [reject!] hands to the block in turn [i]. *)
Definition reject_sample (w : shared_t) (i : Z) : Z :=
  w_data w !!! Z.to_nat ((w_start w + i) `mod` w_length w).

(** One removal, and [r] of them. *)
Definition remove_front (w : shared_t) : shared_t :=
  set_length (w_length w - 1)
    (set_start ((w_start w + 1) `mod` w_length w) w).

Fixpoint remove_fronts (r : nat) (w : shared_t) : shared_t :=
  match r with
  | O => w
  | S r' => remove_fronts r' (remove_front w)
  end.

(** ** Concrete windows and blocks *)

(** A segment as the system hands it out, for a [data] of dimension 8. *)
Definition segment : shared_t :=
  {| w_max_size := 0; w_length := 0; w_start := 0; w_end := 0;
     w_data := replicate 8 0 |}.

(** Windows over that segment: [5, 6], full, in a capacity of 2;
    [3, 4], wrapped around the end of a capacity of 3; [1, 2, 3], full,
    and what two removals by [reject!] leave of it. *)
Definition window_56 : shared_t :=
  {| w_max_size := 2; w_length := 2; w_start := 1; w_end := 1;
     w_data := [6; 5; 0; 0; 0; 0; 0; 0] |}.

Definition window_34 : shared_t :=
  {| w_max_size := 3; w_length := 2; w_start := 2; w_end := 1;
     w_data := [4; 0; 3; 0; 0; 0; 0; 0] |}.

Definition window_123 : shared_t :=
  {| w_max_size := 3; w_length := 3; w_start := 0; w_end := 0;
     w_data := [1; 2; 3; 0; 0; 0; 0; 0] |}.

Definition window_123_twice : shared_t :=
  {| w_max_size := 3; w_length := 1; w_start := 0; w_end := 0;
     w_data := [1; 2; 3; 0; 0; 0; 0; 0] |}.

(** The block [{ |x| p x }] for a test [p] on integers. *)
Definition block_of (p : Z → bool) : block :=
  λ v, match v with
       | Integer z => Returns (if p z then Qtrue else Qfalse)
       | _ => Returns Qnil
       end.

(** A block that raises. *)
Definition raising_block : block := λ _, Throws rb_eStandardError.

(** The block [{ |x| raise if x == z; true }]. *)
Definition raising_on (z : Z) : block :=
  λ v, match v with
       | Integer x => if x =? z then Throws rb_eStandardError else Returns Qtrue
       | _ => Returns Qtrue
       end.

(** 2.5, 9.5 and 1.5 as [double]s. *)
Definition double_2_5 : double := Finite 5 (-1).
Definition double_9_5 : double := Finite 19 (-1).
Definition double_1_5 : double := Finite 3 (-1).

(** ** A program logic for [M]

    [post r Q R U]: the result [r] is a return that satisfies [Q], a raise
    that satisfies [R], or undefined behaviour that satisfies [U]; it is
    not a wait on the semaphore. *)
Definition post {A} (r : result A) (Q : A → machine → Prop)
    (R : exception → machine → Prop) (U : undefined_behaviour → Prop) : Prop :=
  match r with
  | Done a m => Q a m
  | Raised e m => R e m
  | Blocked => False
  | Undefined u => U u
  end.

(** What holds before each turn of the loop of [reject!], [k] turns
    being left: the counter is below [length], no more samples were
    removed than turns were done, and the window has lost one sample for
    each removal. *)
Definition reject_invariant (k : nat) (l : reject_locals) (m : machine) : Prop :=
  (k ≠ 0%nat → 0 ≤ l_i l ∧ l_i l + Z.of_nat k ≤ l_length l) ∧
  l_cleared l ≤ l_i l ∧
  w_length (shm m) = l_length l - l_cleared l.

(** ** What reject! may change *)

(** [w'] is [w] but for [start] and [length], and is not longer. *)
Definition only_front_moved (w w' : shared_t) : Prop :=
  w_max_size w' = w_max_size w ∧ w_end w' = w_end w ∧ w_data w' = w_data w ∧
  w_length w' ≤ w_length w.

(** ** Kinds of calls *)

Definition is_initialize (c : call) : bool :=
  match c with Initialize _ => true | _ => false end.

Definition is_reject (c : call) : bool :=
  match c with Reject _ => true | _ => false end.

(** * Properties *)

(** ** Running the primitive steps *)

Lemma in_int_true z : INT_MIN ≤ z ≤ INT_MAX → in_int z = true.
Proof.
  intros [Hlo Hhi]. unfold in_int.
  apply andb_true_intro. split; apply Z.leb_le; assumption.
Qed.

Lemma in_int_bounds z : in_int z = true → INT_MIN ≤ z ≤ INT_MAX.
Proof.
  unfold in_int. intros H. apply andb_prop in H as [Hlo Hhi].
  split; apply Z.leb_le; assumption.
Qed.

Lemma int_add_run a b m :
  INT_MIN ≤ a + b ≤ INT_MAX → int_add a b m = Done (a + b) m.
Proof. intros H. unfold int_add, int_of. now rewrite in_int_true. Qed.

Lemma int_sub_run a b m :
  INT_MIN ≤ a - b ≤ INT_MAX → int_sub a b m = Done (a - b) m.
Proof. intros H. unfold int_sub, int_of. now rewrite in_int_true. Qed.

(** With a dividend that is not negative and a positive divisor, C's
    remainder is the mathematical one. *)
Lemma int_rem_run a b m :
  0 ≤ a → 0 < b → int_rem a b m = Done (a `mod` b) m.
Proof.
  intros Ha Hb. unfold int_rem.
  destruct (Z.eqb_spec b 0) as [->|_]; [lia|].
  destruct (Z.eqb_spec a INT_MIN) as [->|_]; [unfold INT_MIN in Ha; lia|].
  simpl. unfold ret. f_equal. apply Z.rem_mod_nonneg; lia.
Qed.

Lemma data_load_run index m :
  0 ≤ index < Z.of_nat (length (w_data (shm m))) →
  data_load index m = Done (w_data (shm m) !!! Z.to_nat index) m.
Proof.
  intros [Hlo Hhi]. unfold data_load.
  destruct (Z.ltb_spec index 0); [lia|].
  destruct (lookup_lt_is_Some_2 (w_data (shm m)) (Z.to_nat index)) as [x Hx]; [lia|].
  rewrite Hx. f_equal. symmetry. now apply list_lookup_total_correct.
Qed.

Lemma data_store_run index v m :
  0 ≤ index < Z.of_nat (length (w_data (shm m))) →
  data_store index v m =
    Done tt (with_shm (set_data (<[Z.to_nat index := v]> (w_data (shm m)))) m).
Proof.
  intros [Hlo Hhi]. unfold data_store.
  destruct (Z.ltb_spec index 0); [lia|].
  destruct (lookup_lt_is_Some_2 (w_data (shm m)) (Z.to_nat index)) as [x Hx]; [lia|].
  now rewrite Hx.
Qed.

Lemma RB_NUM2INT_run z m :
  in_int z = true → RB_NUM2INT (Integer z) m = Done z m.
Proof. intros H. unfold RB_NUM2INT. simpl. now rewrite H. Qed.

Lemma RB_NUM2INT_converts v z m :
  rb_num2int v = inl z → RB_NUM2INT v m = Done z m.
Proof. intros H. unfold RB_NUM2INT. now rewrite H. Qed.

Lemma RB_NUM2INT_raises v e m :
  conversion_error v = Some e → RB_NUM2INT v m = Raised e m.
Proof.
  unfold conversion_error, RB_NUM2INT.
  destruct (rb_num2int v); [discriminate|now intros [= <-]].
Qed.

(** What converts is an [int]. *)
Lemma rb_num2int_in_int v z : rb_num2int v = inl z → in_int z = true.
Proof.
  destruct v as [| | |i| |d|[i|e]]; simpl; try discriminate.
  - destruct (in_int i) eqn:Hi; [now intros [= <-]|discriminate].
  - destruct (truncate d) as [i|]; [|discriminate].
    destruct (in_int i) eqn:Hi; [now intros [= <-]|discriminate].
  - destruct (in_int i) eqn:Hi; [now intros [= <-]|discriminate].
Qed.

(** What converts to [z], and how. *)
Lemma rb_num2int_inl v z :
  rb_num2int v = inl z ↔
  in_int z = true ∧
  (v = Integer z ∨ (∃ d, v = Float d ∧ truncate d = Some z) ∨ v = Convertible (Gives z)).
Proof.
  split.
  - intros Hv. split; [now apply (rb_num2int_in_int v)|].
    destruct v as [| | |i| |d|[i|e]]; simpl in Hv; try discriminate;
      repeat case_match; simplify_eq; eauto.
  - intros (Hz & [->|[(d & -> & Hd)| ->]]); simpl; rewrite ?Hd, Hz; reflexivity.
Qed.

Lemma int_of_double_in_int d z : int_of_double d = Some z → in_int z = true.
Proof.
  unfold int_of_double. destruct (truncate d) as [i|]; [|discriminate].
  destruct (in_int i) eqn:Hi; [now intros [= <-]|discriminate].
Qed.

Lemma rb_ary_new_capa_run capa m : 0 ≤ capa → rb_ary_new_capa capa m = Done [] m.
Proof.
  intros H. unfold rb_ary_new_capa. destruct (Z.ltb_spec capa 0); [lia|reflexivity].
Qed.

Lemma rb_yield_run blk v y m : blk v = Returns y → rb_yield blk v m = Done y m.
Proof. intros H. unfold rb_yield. now rewrite H. Qed.

Lemma bind_done {A B} (x : M A) (f : A → M B) m a m' :
  x m = Done a m' → bind x f m = f a m'.
Proof. intros H. unfold bind. now rewrite H. Qed.

Lemma bind_raised {A B} (x : M A) (f : A → M B) m e m' :
  x m = Raised e m' → bind x f m = Raised e m'.
Proof. intros H. unfold bind. now rewrite H. Qed.

Lemma bind_ext {A B} (x : M A) (f g : A → M B) m :
  (∀ a m', f a m' = g a m') → bind x f m = bind x g m.
Proof. intros H. unfold bind. destruct (x m); auto. Qed.

Lemma bind_assoc {A B C} (x : M A) (f : A → M B) (g : B → M C) m :
  bind (bind x f) g m = bind x (λ a, bind (f a) g) m.
Proof. unfold bind. now destruct (x m). Qed.

(** The bounds of the remainders in the goal, for [lia]. *)
Ltac mod_bounds :=
  repeat match goal with
    | |- context [?a `mod` ?b] =>
        lazymatch goal with
        | _ : 0 ≤ a `mod` b < b |- _ => fail
        | _ => assert (0 ≤ a `mod` b < b) by (apply Z.mod_pos_bound; lia)
        end
    end.

Ltac int_bounds := unfold INT_MIN, INT_MAX in *; simpl in *; mod_bounds; lia.

Ltac run_prim :=
  cbn [rd wr ret rb_raise rb_warn undefined sem_meta_lock sem_meta_unlock
       with_shm shm sem_held
       set_max_size set_length set_start set_end set_data
       w_max_size w_length w_start w_end w_data].

Ltac run_state :=
  unfold with_shm, set_max_size, set_length, set_start, set_end, set_data;
  cbn [shm sem_held w_max_size w_length w_start w_end w_data].

(** One step of a run: the first [bind] is unfolded and its left side
    evaluated. *)
Ltac run_step :=
  lazymatch goal with
  | |- context [bind (bind _ _) _ _] => rewrite bind_assoc
  | |- context [bind (if _ then _ else _) _ _] => fail
  | |- context [bind _ _ _] =>
      unfold bind at 1;
      first
        [ rewrite int_add_run by int_bounds
        | rewrite int_sub_run by int_bounds
        | rewrite int_rem_run by int_bounds
        | rewrite data_load_run by int_bounds
        | rewrite data_store_run by int_bounds
        | rewrite RB_NUM2INT_run by assumption
        | erewrite RB_NUM2INT_converts by eassumption
        | rewrite rb_ary_new_capa_run by int_bounds
        | erewrite rb_yield_run by eassumption
        | progress run_prim ]
  end.

Ltac run := repeat run_step; run_prim; run_state.

(** ** The rules of the program logic *)

Section Rules.

Context {A : Type} (Q : A → machine → Prop)
  (R : exception → machine → Prop) (U : undefined_behaviour → Prop).

Lemma post_bind {B} (x : M B) (f : B → M A) m :
  post (x m) (λ b m', post (f b m') Q R U) R U → post (bind x f m) Q R U.
Proof. unfold bind. destruct (x m); simpl; auto. Qed.

Lemma post_ret a m : Q a m → post (ret a m) Q R U.
Proof. auto. Qed.

Lemma post_rb_raise e m : R e m → post (@rb_raise A e m) Q R U.
Proof. auto. Qed.

Lemma post_weaken (r : result A) (Q' : A → machine → Prop)
    (R' : exception → machine → Prop) (U' : undefined_behaviour → Prop) :
  post r Q' R' U' →
  (∀ a m, Q' a m → Q a m) → (∀ e m, R' e m → R e m) → (∀ u, U' u → U u) →
  post r Q R U.
Proof. destruct r; simpl; auto. Qed.

Lemma post_done (r : result A) a m : post r Q R U → r = Done a m → Q a m.
Proof. now intros H ->. Qed.

(** What a caller can observe of a result that is not a wait. *)
Lemma post_observed (r : result A) (P : machine → Prop) :
  post r (λ _, P) (λ _, P) (λ _, True) →
  match r with
  | Done _ m' | Raised _ m' => P m'
  | Blocked | Undefined _ => True
  end.
Proof. destruct r; simpl; auto. Qed.

Lemma post_if (c : bool) (x y : M A) m :
  (c = true → post (x m) Q R U) → (c = false → post (y m) Q R U) →
  post ((if c then x else y) m) Q R U.
Proof. destruct c; auto. Qed.

End Rules.

Section PrimitiveRules.

Context (R : exception → machine → Prop) (U : undefined_behaviour → Prop).

Lemma post_int_add (Q : Z → machine → Prop) a b m :
  (in_int (a + b) = true → Q (a + b) m) → U SignedOverflow →
  post (int_add a b m) Q R U.
Proof. unfold int_add, int_of. destruct (in_int (a + b)); simpl; auto. Qed.

Lemma post_int_sub (Q : Z → machine → Prop) a b m :
  (in_int (a - b) = true → Q (a - b) m) → U SignedOverflow →
  post (int_sub a b m) Q R U.
Proof. unfold int_sub, int_of. destruct (in_int (a - b)); simpl; auto. Qed.

Lemma post_int_rem (Q : Z → machine → Prop) a b m :
  (b ≠ 0 → Q (Z.rem a b) m) → (b = 0 → U DivisionByZero) → U SignedOverflow →
  post (int_rem a b m) Q R U.
Proof.
  intros HQ Hz Ho. unfold int_rem.
  destruct (Z.eqb_spec b 0); [now apply Hz|].
  destruct ((a =? INT_MIN) && (b =? -1)); simpl; auto.
Qed.

Lemma post_data_load (Q : Z → machine → Prop) index m :
  (∀ v, 0 ≤ index → w_data (shm m) !! Z.to_nat index = Some v → Q v m) →
  U (OutOfBounds index) →
  post (data_load index m) Q R U.
Proof.
  intros HQ Ho. unfold data_load.
  destruct (Z.ltb_spec index 0); [assumption|].
  destruct (w_data (shm m) !! Z.to_nat index) eqn:E; simpl; auto.
Qed.

Lemma post_rb_yield (Q : VALUE → machine → Prop) blk v m :
  (∀ y, blk v = Returns y → Q y m) → (∀ e, blk v = Throws e → R e m) →
  post (rb_yield blk v m) Q R U.
Proof. intros HQ HR. unfold rb_yield. destruct (blk v); simpl; auto. Qed.

Lemma post_RB_NUM2INT (Q : Z → machine → Prop) v m :
  (∀ z, rb_num2int v = inl z → in_int z = true → Q z m) →
  (∀ e, rb_num2int v = inr e → R e m) →
  post (RB_NUM2INT v m) Q R U.
Proof.
  intros HQ HR. unfold RB_NUM2INT.
  destruct (rb_num2int v) as [z|e] eqn:Hv; simpl; [|now apply HR].
  apply HQ; [reflexivity|]. now apply (rb_num2int_in_int v).
Qed.

Lemma post_int_cast (Q : Z → machine → Prop) d m :
  (∀ z, int_of_double d = Some z → in_int z = true → Q z m) →
  U FloatToInt →
  post (int_cast d m) Q R U.
Proof.
  intros HQ HU. unfold int_cast.
  destruct (int_of_double d) as [z|] eqn:Hd; simpl; [|assumption].
  apply HQ; [reflexivity|]. now apply (int_of_double_in_int d).
Qed.

Lemma post_rb_warn (Q : unit → machine → Prop) msg m :
  Q tt m → post (rb_warn msg m) Q R U.
Proof. auto. Qed.

Lemma post_rb_ary_new_capa (Q : list VALUE → machine → Prop) capa m :
  (0 ≤ capa → Q [] m) →
  (capa < 0 → R (rb_eArgError "negative array size (or size too big)") m) →
  post (rb_ary_new_capa capa m) Q R U.
Proof.
  intros HQ HR. unfold rb_ary_new_capa.
  destruct (Z.ltb_spec capa 0); simpl; auto.
Qed.

Lemma post_rd (Q : Z → machine → Prop) f m :
  Q (f (shm m)) m → post (rd f m) Q R U.
Proof. auto. Qed.

Lemma post_wr (Q : unit → machine → Prop) set v m :
  Q tt (with_shm (set v) m) → post (wr set v m) Q R U.
Proof. auto. Qed.

Lemma post_sem_meta_unlock (Q : unit → machine → Prop) m :
  Q tt {| shm := shm m; sem_held := false |} → post (sem_meta_unlock m) Q R U.
Proof. auto. Qed.

Lemma post_sem_meta_lock (Q : unit → machine → Prop) m :
  sem_held m = false → Q tt {| shm := shm m; sem_held := true |} →
  post (sem_meta_lock m) Q R U.
Proof. intros H HQ. unfold sem_meta_lock. now rewrite H. Qed.

End PrimitiveRules.

Ltac wp_step :=
  lazymatch goal with
  | |- post (bind _ _ _) _ _ _ => apply post_bind
  | |- post (ret _ _) _ _ _ => apply post_ret
  | |- post (rb_raise _ _) _ _ _ => apply post_rb_raise
  | |- post (int_add _ _ _) _ _ _ => apply post_int_add; [intros ?|]
  | |- post (int_sub _ _ _) _ _ _ => apply post_int_sub; [intros ?|]
  | |- post (int_rem _ _ _) _ _ _ => apply post_int_rem; [intros ?|intros ?|]
  | |- post (data_load _ _) _ _ _ => apply post_data_load; [intros ? ? ?|]
  | |- post (rb_yield _ _ _) _ _ _ => apply post_rb_yield; [intros ? ?|intros ? ?]
  | |- post (RB_NUM2INT _ _) _ _ _ => apply post_RB_NUM2INT; [intros ? ? ?|intros ? ?]
  | |- post (int_cast _ _) _ _ _ => apply post_int_cast; [intros ? ? ?|]
  | |- post (rb_warn _ _) _ _ _ => apply post_rb_warn
  | |- post (rb_ary_new_capa _ _) _ _ _ => apply post_rb_ary_new_capa; intros ?
  | |- post (rd _ _) _ _ _ => apply post_rd
  | |- post (wr _ _ _) _ _ _ => apply post_wr
  | |- post (sem_meta_unlock _) _ _ _ => apply post_sem_meta_unlock
  | |- post ((if _ then _ else _) _) _ _ _ => apply post_if; intros ?
  end.

(** ** reject! *)

(** After the lock the call is the loop from the locals of entry. *)
Lemma reject_unfold blk w :
  semian_simple_sliding_window_reject (Some blk) (unlocked w) =
    (reject_loop (Z.to_nat (w_length w)) blk (reject_entry w) >> sem_meta_unlock)
      (locked w).
Proof. reflexivity. Qed.

(** The first [k] turns of a run of [k + n] turns are a run of [k]
    turns. *)
Lemma reject_loop_app blk k n l m :
  reject_loop (k + n) blk l m = bind (reject_loop k blk l) (reject_loop n blk) m.
Proof.
  revert l m. induction k as [|k IH]; intros l m; [reflexivity|].
  cbn [Nat.add reject_loop]. rewrite bind_assoc.
  apply bind_ext. intros l' m'. apply IH.
Qed.

(** What one turn of the loop can do, whatever the window holds. *)
Lemma reject_iteration_cases blk l m :
  post (reject_iteration blk l m)
    (λ l' m',
      l_start l' = l_start l ∧ l_length l' = l_length l ∧
      l_i l' = l_i l + 1 ∧ sem_held m' = sem_held m ∧ l_length l ≠ 0 ∧
      ((l_cleared l' = l_cleared l ∧ m' = m) ∨
       (l_cleared l = l_i l ∧ l_cleared l' = l_cleared l + 1 ∧
        w_length (shm m) ≠ 0 ∧
        shm m' =
          set_length (w_length (shm m) - 1)
            (set_start (Z.rem (w_start (shm m) + 1) (w_length (shm m))) (shm m)))))
    (λ e m', shm m' = shm m)
    (λ u, u = DivisionByZero →
          l_length l = 0 ∨ (l_cleared l = l_i l ∧ w_length (shm m) = 0)).
Proof.
  unfold reject_iteration, reject_index.
  repeat wp_step.
  all: repeat match goal with
       | H : negb _ = false |- _ => apply negb_false_iff in H
       | H : (_ =? _) = true |- _ => apply Z.eqb_eq in H
       end.
  all: try (intros ?; discriminate).
  all: cbn [l_start l_length l_cleared l_i shm sem_held with_shm].
  all: try reflexivity.
  all: try (intros _; first [left; assumption | right; split; assumption]).
  all: repeat split; try assumption; try reflexivity.
  - right. repeat split; assumption || reflexivity.
  - left. split; reflexivity.
Qed.

Lemma reject_iteration_invariant k blk l m :
  reject_invariant (S k) l m →
  post (reject_iteration blk l m)
    (λ l' m', reject_invariant k l' m' ∧
              l_start l' = l_start l ∧ l_length l' = l_length l ∧
              l_i l' = l_i l + 1 ∧ sem_held m' = sem_held m ∧
              (0 ≤ l_cleared l → 0 ≤ l_cleared l') ∧
              (∀ N, bounded N (shm m) → bounded N (shm m')))
    (λ e m', shm m' = shm m)
    (λ u, u ≠ DivisionByZero).
Proof.
  intros (Hk & Hcl & Hlen). specialize (Hk ltac:(lia)).
  eapply post_weaken; [apply reject_iteration_cases|..]; cbv beta.
  - intros l' m' (Hs & Hl & Hi & Hheld & Hnz & Hcase).
    assert (Hinv : reject_invariant k l' m').
    { unfold reject_invariant. rewrite Hl, Hi.
      destruct Hcase as [[Hc ->]|(Hc & Hc' & _ & Hshm)].
      - rewrite Hc. split_and!; lia.
      - rewrite Hc', Hshm. cbn [set_length w_length]. split_and!; lia. }
    split_and!; try assumption.
    + destruct Hcase as [[-> _]|(_ & -> & _)]; lia.
    + destruct Hcase as [[_ ->]|(Hc & Hc' & Hwl & Hshm)]; [trivial|].
      intros N [Hb1 Hb2 Hb3 Hb4 Hb5]. rewrite Hshm.
      assert (0 ≤ (w_start (shm m) + 1) `rem` w_length (shm m) < w_length (shm m)).
      { rewrite Z.rem_mod_nonneg by lia. apply Z.mod_pos_bound. lia. }
      split; cbn [set_length set_start w_max_size w_length w_start w_end w_data]; lia.
  - auto.
  - intros u Hu ->. destruct (Hu eq_refl) as [?|[? ?]]; lia.
Qed.

Lemma reject_loop_invariant k blk l m :
  reject_invariant k l m →
  post (reject_loop k blk l m)
    (λ l' m', reject_invariant 0 l' m' ∧
              l_start l' = l_start l ∧ l_length l' = l_length l ∧
              l_i l' = l_i l + Z.of_nat k ∧ sem_held m' = sem_held m ∧
              (0 ≤ l_cleared l → 0 ≤ l_cleared l') ∧
              (∀ N, bounded N (shm m) → bounded N (shm m')))
    (λ e m', ∀ N, bounded N (shm m) → bounded N (shm m'))
    (λ u, u ≠ DivisionByZero).
Proof.
  revert l m. induction k as [|k IH]; intros l m Hinv.
  - simpl. split_and!; try apply Hinv; auto with lia.
  - cbn [reject_loop]. apply post_bind.
    eapply post_weaken; [apply (reject_iteration_invariant k), Hinv|..]; cbv beta.
    + intros l1 m1 (Hinv1 & Hs & Hl & Hi & Hheld & Hc & Hb).
      eapply post_weaken; [apply IH, Hinv1|..]; cbv beta.
      * intros l' m' (Hinv' & Hs' & Hl' & Hi' & Hheld' & Hc' & Hb').
        split_and!; try apply Hinv'; try congruence; auto.
        rewrite Hi', Hi. lia.
      * auto.
      * auto.
    + intros e m' ->. auto.
    + auto.
Qed.

Lemma reject_entry_invariant w :
  reject_invariant (Z.to_nat (w_length w)) (reject_entry w) (locked w).
Proof. unfold reject_invariant, reject_entry. simpl. lia. Qed.

(** ** The divisors of reject! *)

Lemma reject_no_division_by_zero blk m :
  semian_simple_sliding_window_reject blk m ≠ Undefined DivisionByZero.
Proof.
  destruct blk as [b|]; [|discriminate].
  destruct m as [w [|]]; [discriminate|].
  unfold semian_simple_sliding_window_reject. cbn [rb_need_block].
  pose proof (reject_loop_invariant (Z.to_nat (w_length w)) b (reject_entry w)
                (locked w) (reject_entry_invariant w)) as Hloop.
  unfold reject_entry, locked in Hloop.
  run. unfold bind at 1.
  destruct (reject_loop _ _ _ _) as [l' m'| | |u]; simpl in Hloop;
    try discriminate.
  intros [= ->]. now apply Hloop.
Qed.

Lemma reject_loop_from_entry blk w k l m' :
  (k ≤ Z.to_nat (w_length w))%nat →
  reject_loop k blk (reject_entry w) (locked w) = Done l m' →
  l_start l = w_start w ∧ l_length l = w_length w ∧ l_i l = Z.of_nat k ∧
  0 ≤ l_cleared l ≤ Z.of_nat k ∧
  w_length (shm m') = w_length w - l_cleared l.
Proof.
  intros Hk Hrun.
  assert (Hinv : reject_invariant k (reject_entry w) (locked w)).
  { unfold reject_invariant, reject_entry. simpl. lia. }
  pose proof (post_done _ _ _ _ _ _ (reject_loop_invariant k blk _ _ Hinv) Hrun)
    as ((_ & Hcl & Hlen) & Hs & Hl & Hi & _ & Hc & _).
  cbn [reject_entry l_start l_length l_i l_cleared] in *.
  rewrite Hl in Hlen. split_and!; try assumption; lia.
Qed.

(** C10: the divisor of every [%] in [reject!] is at least 1, so that no
    window and no block make it divide by zero. *)
Theorem reject_divisors_positive :
  (∀ blk m, semian_simple_sliding_window_reject blk m ≠ Undefined DivisionByZero) ∧
  (∀ blk w k l m',
     (k < Z.to_nat (w_length w))%nat →
     reject_loop k blk (reject_entry w) (locked w) = Done l m' →
     1 ≤ l_length l ∧ 1 ≤ w_length (shm m')).
Proof.
  split; [apply reject_no_division_by_zero|].
  intros blk w k l m' Hk Hrun.
  destruct (reject_loop_from_entry blk w k l m') as (_ & Hl & _ & Hc & Hlen);
    [lia|assumption|].
  lia.
Qed.

Section Properties.

Variable MAX : Z.
Hypothesis MAX_fits : MAX ≤ 1073741824.

Abbreviation bounded := (bounded MAX).
Abbreviation consistent := (consistent MAX).

(** *** push *)

Lemma push_run v w :
  bounded w → in_int v = true →
  semian_simple_sliding_window_push (Integer v) (unlocked w) =
    Done tt (unlocked (pushed v w)).
Proof.
  intros [Hc Hl Hs He Hd] Hv.
  destruct w as [cap len s e d]; simpl in *.
  unfold semian_simple_sliding_window_push, pushed, unlocked.
  run.
  destruct (Z.eqb_spec len cap) as [->|Hne]; run; reflexivity.
Qed.

(** A push of any value that converts stores what it converts to. *)
Lemma push_converts value v w :
  bounded w → rb_num2int value = inl v →
  semian_simple_sliding_window_push value (unlocked w) =
    Done tt (unlocked (pushed v w)).
Proof.
  intros [Hc Hl Hs He Hd] Hv.
  destruct w as [cap len s e d]; simpl in *.
  unfold semian_simple_sliding_window_push, pushed, unlocked.
  run.
  destruct (Z.eqb_spec len cap) as [->|Hne]; run; reflexivity.
Qed.

Lemma conversion_cases value :
  (∃ v, rb_num2int value = inl v ∧ in_int v = true) ∨
  (∃ e, conversion_error value = Some e).
Proof.
  unfold conversion_error. destruct (rb_num2int value) as [v|e] eqn:Hv.
  - left. exists v. split; [reflexivity|]. now apply (rb_num2int_in_int value).
  - right. now exists e.
Qed.

(** A push whose argument does not convert leaves by the exception of
    [RB_NUM2INT], after [length++] and with the semaphore held. *)
Lemma push_raises value e w :
  bounded w → conversion_error value = Some e →
  semian_simple_sliding_window_push value (unlocked w) =
    Raised e (locked (push_interrupted w)).
Proof.
  intros [Hc Hl Hs He Hd] Hv. pose proof (RB_NUM2INT_raises value e) as Hr.
  destruct w as [cap len s e0 d]; simpl in *.
  unfold semian_simple_sliding_window_push, push_interrupted, unlocked, locked.
  run.
  destruct (Z.eqb_spec len cap) as [->|Hne]; run;
    unfold bind at 1; rewrite Hr by assumption; reflexivity.
Qed.

(** *** values *)

Lemma rb_ary_store_end (ary : list VALUE) v :
  rb_ary_store ary (Z.of_nat (length ary)) v = ary ++ [v].
Proof.
  unfold rb_ary_store. rewrite Nat2Z.id.
  destruct (Nat.ltb_spec (length ary) (length ary)); [lia|].
  now rewrite Nat.sub_diag.
Qed.

Lemma values_loop_run w held n i (acc : list VALUE) :
  bounded w → 0 ≤ i → i + Z.of_nat n ≤ w_length w →
  Z.of_nat (length acc) = i →
  values_loop n i acc {| shm := w; sem_held := held |} =
    Done (acc ++ ((λ j, Integer (sample w j)) <$> seqZ i (Z.of_nat n)))
         {| shm := w; sem_held := held |}.
Proof.
  intros [Hc Hl Hs He Hd].
  revert i acc. induction n as [|n IH]; intros i acc Hi Hn Hacc.
  - simpl. now rewrite app_nil_r.
  - cbn [values_loop]. run. subst i.
    rewrite rb_ary_store_end.
    rewrite IH; [|lia|lia|rewrite length_app; simpl; lia].
    rewrite (seqZ_cons (Z.of_nat (length acc))) by lia.
    rewrite fmap_cons, <- app_assoc. simpl.
    unfold sample, RB_INT2NUM.
    now replace (Z.pred (Z.of_nat (S n))) with (Z.of_nat n) by lia.
Qed.

Lemma values_run w :
  bounded w →
  semian_simple_sliding_window_values (unlocked w) =
    Done (Integer <$> window_values w) (unlocked w).
Proof.
  intros Hw. pose proof Hw as [Hc Hl Hs He Hd].
  unfold semian_simple_sliding_window_values, unlocked.
  run. unfold bind at 1.
  rewrite (values_loop_run w true); [|assumption|lia|lia|reflexivity].
  run. simpl. unfold window_values.
  rewrite Z2Nat.id by lia. now rewrite <- list_fmap_compose.
Qed.

(** *** last *)

Lemma last_run w :
  bounded w → 0 < w_length w →
  semian_simple_sliding_window_last (unlocked w) =
    Done (Integer (sample w (w_length w - 1))) (unlocked w).
Proof.
  intros [Hc Hl Hs He Hd] Hpos.
  unfold semian_simple_sliding_window_last, unlocked, sample.
  run. unfold RB_INT2NUM, ret. now rewrite Z.add_sub_assoc.
Qed.

(** *** size, max_size, clear, initialize *)

Lemma size_run w :
  semian_simple_sliding_window_size (unlocked w) =
    Done (Integer (w_length w)) (unlocked w).
Proof. reflexivity. Qed.

Lemma max_size_run w :
  semian_simple_sliding_window_max_size (unlocked w) =
    Done (Integer (w_max_size w)) (unlocked w).
Proof. reflexivity. Qed.

Lemma clear_run w :
  semian_simple_sliding_window_clear (unlocked w) =
    Done tt (unlocked (initialized (w_max_size w) w)).
Proof. reflexivity. Qed.

Lemma initialize_run c m :
  1 ≤ c ≤ MAX →
  semian_simple_sliding_window_initialize MAX (Integer c) m =
    Done tt (with_shm (initialized c) m).
Proof.
  intros Hc.
  assert (in_int c = true) by (apply in_int_true; int_bounds).
  unfold semian_simple_sliding_window_initialize, check_max_size_arg.
  run.
  destruct (Z.leb_spec c 0); [lia|].
  destruct (Z.gtb_spec c MAX); [lia|].
  run. reflexivity.
Qed.

(** ** The circular buffer *)

(** Two positions less than [c] apart fall on different slots. *)
Lemma mod_add_ne s c j k :
  0 < c → 0 ≤ j < k → k < j + c → (s + j) `mod` c ≠ (s + k) `mod` c.
Proof.
  intros Hc Hjk Hk Heq.
  assert (Hz : (k - j) `mod` c = 0).
  { replace (k - j) with ((s + k) - (s + j)) by lia.
    rewrite Zminus_mod, Heq, Z.sub_diag. now apply Z.mod_0_l, Z.neq_sym, Z.lt_neq. }
  rewrite Z.mod_small in Hz; lia.
Qed.

Lemma pushed_bounded v w : bounded w → bounded (pushed v w).
Proof.
  intros [Hc Hl Hs He Hd]. unfold pushed.
  destruct (Z.eqb_spec (w_length w) (w_max_size w)) as [Hfull|Hne];
    split; cbn [w_max_size w_length w_start w_end w_data];
    rewrite ?length_insert; mod_bounds; lia.
Qed.

Lemma push_interrupted_bounded w : bounded w → bounded (push_interrupted w).
Proof.
  intros [Hc Hl Hs He Hd]. unfold push_interrupted.
  destruct (Z.eqb_spec (w_length w) (w_max_size w)) as [Hfull|Hne];
    split; cbn [w_max_size w_length w_start w_end w_data];
    mod_bounds; lia.
Qed.

Lemma initialized_consistent c w :
  1 ≤ c ≤ MAX → Z.of_nat (length (w_data w)) = MAX → consistent (initialized c w).
Proof.
  intros Hc Hd. split; [split; simpl; lia|].
  simpl. symmetry. apply Z.mod_0_l. lia.
Qed.

Lemma pushed_consistent v w : consistent w → consistent (pushed v w).
Proof.
  intros [Hb Hend]. split; [now apply pushed_bounded|].
  destruct Hb as [Hc Hl Hs He Hd]. unfold pushed.
  cbn [w_max_size w_length w_start w_end w_data]. rewrite Hend.
  destruct (Z.eqb_spec (w_length w) (w_max_size w)) as [Hfull|Hne].
  - rewrite Hfull.
    replace (w_start w + w_max_size w) with (w_start w + 1 * w_max_size w) by lia.
    rewrite Z.mod_add by lia.
    rewrite (Z.mod_small (w_start w)) by lia.
    replace (w_max_size w - 1 + 1) with (1 * w_max_size w) by lia.
    rewrite Z.mod_add by lia. now rewrite Z.mod_mod by lia.
  - rewrite Z.add_mod_idemp_l by lia. f_equal. lia.
Qed.

(** [push] on the list of samples: the new sample goes to the back, and
    on a full window the front sample leaves. *)
Lemma window_values_pushed v w :
  consistent w →
  window_values (pushed v w) =
    (if w_length w =? w_max_size w then drop 1 (window_values w)
     else window_values w) ++ [v].
Proof.
  intros [[Hc Hl Hs He Hd] Hend]. unfold window_values, pushed.
  cbn [w_length].
  destruct (Z.eqb_spec (w_length w) (w_max_size w)) as [Hfull|Hne].
  - rewrite Hfull in *.
    assert (Hes : w_end w = w_start w).
    { rewrite Hend.
      replace (w_start w + w_max_size w) with (w_start w + 1 * w_max_size w) by lia.
      rewrite Z.mod_add by lia. apply Z.mod_small; lia. }
    replace (w_max_size w - 1 + 1) with ((w_max_size w - 1) + 1) by lia.
    rewrite seqZ_app by lia. rewrite fmap_app. f_equal.
    + rewrite (seqZ_cons 0 (w_max_size w)) by lia.
      rewrite fmap_cons. cbn [drop].
      replace (Z.succ 0) with (1 + 0) by lia. rewrite <- fmap_add_seqZ.
      rewrite <- list_fmap_compose. apply list_fmap_ext.
      intros i j Hj. apply lookup_seqZ in Hj as [-> Hi].
      unfold sample, compose. cbn [w_start w_max_size w_data w_end].
      rewrite Z.add_mod_idemp_l by lia.
      rewrite list_lookup_total_insert_ne.
      * now rewrite <- Z.add_assoc.
      * rewrite Hes. intros Heq. apply Z2Nat.inj in Heq; [|lia|mod_bounds; lia].
        apply (mod_add_ne (w_start w) (w_max_size w) 0 (1 + (0 + Z.of_nat i)));
          [lia..|].
        rewrite Z.add_0_r, Z.mod_small by lia.
        now rewrite Z.add_assoc.
    + simpl. f_equal. unfold sample. cbn [w_start w_max_size w_data w_end].
      rewrite Z.add_mod_idemp_l by lia.
      replace (w_start w + 1 + (Z.of_nat 0 + (0 + (w_max_size w - 1))))
        with (w_start w + 1 * w_max_size w) by lia.
      rewrite Z.mod_add by lia. rewrite Z.mod_small by lia. rewrite Hes.
      apply list_lookup_total_insert_eq. lia.
  - rewrite seqZ_app by lia. rewrite fmap_app. f_equal.
    + apply list_fmap_ext. intros i j Hj. apply lookup_seqZ in Hj as [-> Hi].
      unfold sample. cbn [w_start w_max_size w_data w_end].
      apply list_lookup_total_insert_ne.
      rewrite Hend. intros Heq. apply Z2Nat.inj in Heq; [|mod_bounds; lia..].
      apply (mod_add_ne (w_start w) (w_max_size w) (0 + Z.of_nat i) (w_length w));
        [lia..|]. now symmetry.
    + simpl. f_equal. unfold sample. cbn [w_start w_max_size w_data w_end].
      replace (w_start w + (Z.of_nat 0 + (0 + w_length w)))
        with (w_start w + w_length w) by lia.
      rewrite <- Hend. apply list_lookup_total_insert_eq. lia.
Qed.

Lemma length_window_values w :
  length (window_values w) = Z.to_nat (w_length w).
Proof. unfold window_values. now rewrite length_fmap, length_seqZ. Qed.

(** ** Sequences of pushes *)

Lemma trim_short c l : Z.of_nat (length l) ≤ c → trim c l = l.
Proof.
  intros H. unfold trim.
  replace (length l - Z.to_nat c)%nat with 0%nat by lia. apply drop_0.
Qed.

Lemma trim_app c l k : trim c (trim c l ++ k) = trim c (l ++ k).
Proof.
  unfold trim.
  rewrite <- (drop_app_le l k) by lia.
  rewrite drop_drop. f_equal.
  rewrite length_drop, !length_app. lia.
Qed.

Lemma window_values_pushed_trim v w :
  consistent w →
  window_values (pushed v w) = trim (w_max_size w) (window_values w ++ [v]).
Proof.
  intros Hw. rewrite window_values_pushed by assumption.
  destruct Hw as [[Hc Hl Hs He Hd] _]. unfold trim.
  rewrite length_app, length_window_values. simpl.
  destruct (Z.eqb_spec (w_length w) (w_max_size w)) as [Hfull|Hne].
  - replace (Z.to_nat (w_length w) + 1 - Z.to_nat (w_max_size w))%nat with 1%nat by lia.
    rewrite drop_app_le; [reflexivity|].
    rewrite length_window_values. lia.
  - replace (Z.to_nat (w_length w) + 1 - Z.to_nat (w_max_size w))%nat with 0%nat by lia.
    now rewrite drop_0.
Qed.

Lemma pushes_run vs w :
  consistent w → Forall (λ v, in_int v = true) vs →
  ∃ w', perform_all MAX (pushes vs) (unlocked w) = Done tt (unlocked w') ∧
        consistent w' ∧ w_max_size w' = w_max_size w ∧
        window_values w' = trim (w_max_size w) (window_values w ++ vs).
Proof.
  intros Hw Hvs. revert w Hw.
  induction Hvs as [|v vs Hv Hvs IH]; intros w Hw.
  - exists w. repeat split; try assumption; try apply Hw.
    rewrite app_nil_r. symmetry. apply trim_short.
    rewrite length_window_values. destruct Hw as [[] _]. lia.
  - destruct (IH (pushed v w) (pushed_consistent v w Hw)) as (w' & Hrun & Hw' & Hcap & Hvals).
    exists w'. split; [|split; [assumption|split]].
    + cbn [pushes fmap list_fmap perform_all perform].
      erewrite bind_done by (apply push_run; [apply Hw|assumption]).
      exact Hrun.
    + rewrite Hcap. reflexivity.
    + rewrite Hvals, window_values_pushed_trim by assumption.
      cbn [pushed w_max_size]. rewrite trim_app.
      now rewrite <- app_assoc.
Qed.

(** ** push, values and last on a window within its bounds *)

(** C1: a push on a full window first evicts the oldest sample ([start]
    advances by one modulo the capacity, [length] goes down by one) and
    then writes the new value at [end]; so [capacity + 1] pushes into a
    fresh window leave [values] equal to all of them but the first. *)
Theorem push_full_evicts_oldest w v w0 c vs :
  bounded w → in_int v = true → w_length w = w_max_size w →
  Z.of_nat (length (w_data w0)) = MAX → 1 ≤ c ≤ MAX →
  Forall (λ x, in_int x = true) vs → Z.of_nat (length vs) = c + 1 →
  semian_simple_sliding_window_push (Integer v) (unlocked w) =
    Done tt (unlocked
      {| w_max_size := w_max_size w;
         w_length := w_length w - 1 + 1;
         w_start := (w_start w + 1) `mod` w_max_size w;
         w_end := (w_end w + 1) `mod` w_max_size w;
         w_data := <[Z.to_nat (w_end w) := v]> (w_data w) |})
  ∧ ∃ m,
      perform_all MAX (Initialize (Integer c) :: pushes vs) (unlocked w0) = Done tt m ∧
      semian_simple_sliding_window_values m = Done (Integer <$> drop 1 vs) m.
Proof.
  intros Hw Hv Hfull Hd Hc Hvs Hlen. split.
  - rewrite push_run by assumption. unfold pushed.
    apply Z.eqb_eq in Hfull. now rewrite Hfull.
  - destruct (pushes_run vs (initialized c w0)) as (w' & Hrun & Hw' & _ & Hvals);
      [now apply initialized_consistent|assumption|].
    exists (unlocked w'). split.
    + cbn [perform_all perform].
      erewrite bind_done by (now apply initialize_run). exact Hrun.
    + rewrite values_run by apply Hw'. do 2 f_equal.
      rewrite Hvals. unfold trim. simpl. f_equal. lia.
Qed.

Lemma window_values_lookup w i :
  bounded w → 0 ≤ i < w_length w →
  ∃ x, w_data w !! Z.to_nat ((w_start w + i) `mod` w_max_size w) = Some x ∧
       window_values w !! Z.to_nat i = Some x.
Proof.
  intros [Hc Hl Hs He Hd] Hi.
  destruct (lookup_lt_is_Some_2 (w_data w)
              (Z.to_nat ((w_start w + i) `mod` w_max_size w))) as [x Hx];
    [mod_bounds; lia|].
  exists x. split; [assumption|].
  unfold window_values. rewrite list_lookup_fmap.
  rewrite lookup_seqZ_lt by lia. simpl. f_equal.
  unfold sample. rewrite Z2Nat.id by lia.
  now apply list_lookup_total_correct.
Qed.

(** C6: [values] returns [length] samples, and the sample at position
    [i] is [data[(start + i) mod capacity]]. *)
Theorem values_in_logical_order w :
  bounded w →
  ∃ vs, semian_simple_sliding_window_values (unlocked w) = Done vs (unlocked w) ∧
        Z.of_nat (length vs) = w_length w ∧
        ∀ i, 0 ≤ i < w_length w →
          ∃ x, w_data w !! Z.to_nat ((w_start w + i) `mod` w_max_size w) = Some x ∧
               vs !! Z.to_nat i = Some (Integer x).
Proof.
  intros Hw. exists (Integer <$> window_values w).
  split; [now apply values_run|]. split.
  - rewrite length_fmap, length_window_values. destruct Hw. lia.
  - intros i Hi.
    destruct (window_values_lookup w i Hw Hi) as (x & Hx & Hi').
    exists x. split; [assumption|].
    now rewrite list_lookup_fmap, Hi'.
Qed.

(** C7: on a window that is not empty [last] returns
    [data[(start + length - 1) mod capacity]], the last element of
    [values]. *)
Theorem last_is_last_of_values w :
  bounded w → 0 < w_length w →
  ∃ x vs,
    w_data w !! Z.to_nat ((w_start w + w_length w - 1) `mod` w_max_size w) = Some x ∧
    semian_simple_sliding_window_last (unlocked w) = Done (Integer x) (unlocked w) ∧
    semian_simple_sliding_window_values (unlocked w) = Done vs (unlocked w) ∧
    vs !! Z.to_nat (w_length w - 1) = Some (Integer x).
Proof.
  intros Hw Hpos.
  destruct (window_values_lookup w (w_length w - 1) Hw) as (x & Hx & Hlast); [lia|].
  rewrite Z.add_sub_assoc in Hx.
  exists x, (Integer <$> window_values w). repeat split.
  - assumption.
  - rewrite last_run by assumption. do 2 f_equal.
    unfold sample. rewrite Z.add_sub_assoc.
    now apply list_lookup_total_correct.
  - now apply values_run.
  - now rewrite list_lookup_fmap, Hlast.
Qed.

(** ** What reject! does with a block that does not raise *)

Lemma remove_front_bounded w :
  bounded w → 1 ≤ w_length w → bounded (remove_front w).
Proof.
  intros [Hc Hl Hs He Hd] Hpos. unfold remove_front.
  split; cbn [set_length set_start w_max_size w_length w_start w_end w_data];
    mod_bounds; lia.
Qed.

Lemma accepts_returns blk v :
  accepts blk v = true → ∃ y, blk (RB_INT2NUM v) = Returns y ∧ RTEST y = true.
Proof. unfold accepts. destruct (blk _); [eauto|discriminate]. Qed.

Lemma refuses_returns blk v :
  refuses blk v = true → ∃ y, blk (RB_INT2NUM v) = Returns y ∧ RTEST y = false.
Proof.
  unfold refuses. destruct (blk _) as [y|]; [|discriminate].
  intros H. exists y. split; [reflexivity|]. now apply negb_true_iff.
Qed.

Section Turns.

(** The locals [start] and [length], and the block. *)
Variables (blk : block) (s0 l0 : Z).
Hypothesis s0_bounds : 0 ≤ s0 ≤ MAX.
Hypothesis l0_bounds : l0 ≤ MAX.

Let turn (c i : Z) : reject_locals :=
  {| l_start := s0; l_length := l0; l_cleared := c; l_i := i |}.

Let seen (w : shared_t) (i : Z) : Z :=
  w_data w !!! Z.to_nat ((s0 + i) `mod` l0).

(** A turn that removes the sample. *)
Lemma reject_iteration_accepts c w :
  bounded w → 0 ≤ c < l0 → w_length w = l0 - c →
  accepts blk (seen w c) = true →
  reject_iteration blk (turn c c) (locked w) =
    Done (turn (c + 1) (c + 1)) (locked (remove_front w)).
Proof.
  intros [Hc Hl Hs He Hd] Hcl Hlen Hacc.
  apply accepts_returns in Hacc as (y & Hy & Ht).
  unfold reject_iteration, reject_index, turn, locked, seen in *.
  cbn [l_start l_length l_cleared l_i]. run.
  rewrite Ht. run. rewrite Z.eqb_refl. cbn [negb]. run.
  unfold remove_front, set_length, set_start. reflexivity.
Qed.

(** A turn that keeps the sample. *)
Lemma reject_iteration_refuses c i w :
  bounded w → 0 ≤ i < l0 →
  refuses blk (seen w i) = true →
  reject_iteration blk (turn c i) (locked w) = Done (turn c (i + 1)) (locked w).
Proof.
  intros [Hc Hl Hs He Hd] Hi Href.
  apply refuses_returns in Href as (y & Hy & Ht).
  unfold reject_iteration, reject_index, turn, locked, seen in *.
  cbn [l_start l_length l_cleared l_i]. run.
  rewrite Ht. run. reflexivity.
Qed.

(** A turn that meets a sample to remove after one that was kept. *)
Lemma reject_iteration_gap c i w :
  bounded w → 0 ≤ c < i → i < l0 →
  accepts blk (seen w i) = true →
  reject_iteration blk (turn c i) (locked w) =
    Raised (rb_eArgError "reject! must delete monotonically") (unlocked w).
Proof.
  intros [Hc Hl Hs He Hd] Hci Hi Hacc.
  apply accepts_returns in Hacc as (y & Hy & Ht).
  unfold reject_iteration, reject_index, turn, locked, seen in *.
  cbn [l_start l_length l_cleared l_i]. run.
  rewrite Ht. run.
  destruct (Z.eqb_spec c i); [lia|]. cbn [negb]. run. reflexivity.
Qed.

Lemma seen_remove_front w i : seen (remove_front w) i = seen w i.
Proof. reflexivity. Qed.

Lemma reject_loop_accepts r : ∀ c w,
  bounded w → 0 ≤ c → c + Z.of_nat r ≤ l0 → w_length w = l0 - c →
  (∀ i, c ≤ i < c + Z.of_nat r → accepts blk (seen w i) = true) →
  reject_loop r blk (turn c c) (locked w) =
    Done (turn (c + Z.of_nat r) (c + Z.of_nat r)) (locked (remove_fronts r w)).
Proof.
  induction r as [|r IH]; intros c w Hw Hc Hr Hlen Hacc.
  - cbn [reject_loop remove_fronts]. now rewrite Z.add_0_r.
  - cbn [reject_loop remove_fronts].
    erewrite bind_done by (apply reject_iteration_accepts; auto with lia).
    replace (c + Z.of_nat (S r)) with (c + 1 + Z.of_nat r) by lia.
    apply IH.
    + apply remove_front_bounded; [assumption|lia].
    + lia.
    + lia.
    + unfold remove_front. cbn [set_length w_length]. lia.
    + intros i Hi. rewrite seen_remove_front. apply Hacc. lia.
Qed.

Lemma reject_loop_refuses n : ∀ c i w,
  bounded w → 0 ≤ i → i + Z.of_nat n ≤ l0 →
  (∀ j, i ≤ j < i + Z.of_nat n → refuses blk (seen w j) = true) →
  reject_loop n blk (turn c i) (locked w) =
    Done (turn c (i + Z.of_nat n)) (locked w).
Proof.
  induction n as [|n IH]; intros c i w Hw Hi Hn Href.
  - cbn [reject_loop]. now rewrite Z.add_0_r.
  - cbn [reject_loop].
    erewrite bind_done by (apply reject_iteration_refuses; auto with lia).
    replace (i + Z.of_nat (S n)) with (i + 1 + Z.of_nat n) by lia.
    apply IH; [assumption|lia|lia|intros j Hj; apply Href; lia].
Qed.

End Turns.

Lemma remove_fronts_bounded r : ∀ w,
  bounded w → Z.of_nat r ≤ w_length w →
  bounded (remove_fronts r w) ∧
  w_length (remove_fronts r w) = w_length w - Z.of_nat r ∧
  w_data (remove_fronts r w) = w_data w.
Proof.
  induction r as [|r IH]; intros w Hw Hr.
  - cbn [remove_fronts]. split_and!; auto with lia.
  - cbn [remove_fronts].
    destruct (IH (remove_front w)) as (Hb & Hl & Hd).
    + apply remove_front_bounded; [assumption|lia].
    + unfold remove_front. cbn [set_length w_length]. lia.
    + split_and!; [assumption| |assumption].
      rewrite Hl. unfold remove_front. cbn [set_length w_length]. lia.
Qed.

(** The block takes the first [r] samples and leaves the others:
    [reject!] returns, [r] removals made. *)
Lemma reject_returns blk w r :
  bounded w → Z.of_nat r ≤ w_length w →
  (∀ i, 0 ≤ i < Z.of_nat r → accepts blk (reject_sample w i) = true) →
  (∀ i, Z.of_nat r ≤ i < w_length w → refuses blk (reject_sample w i) = true) →
  semian_simple_sliding_window_reject (Some blk) (unlocked w) =
    Done tt (unlocked (remove_fronts r w)).
Proof.
  intros Hw Hr Hacc Href. pose proof Hw as [Hc Hl Hs He Hd].
  destruct (remove_fronts_bounded r w Hw Hr) as (Hb' & _ & Hd').
  unfold semian_simple_sliding_window_reject, unlocked. cbn [rb_need_block]. run.
  replace (Z.to_nat (w_length w)) with (r + Z.to_nat (w_length w - Z.of_nat r))%nat by lia.
  unfold bind at 1. rewrite reject_loop_app.
  erewrite bind_done;
    [|apply (reject_loop_accepts blk (w_start w) (w_length w)
               ltac:(lia) ltac:(lia) r 0 w); auto with lia].
  rewrite (reject_loop_refuses blk (w_start w) (w_length w));
    [reflexivity|lia|lia|assumption|lia|lia|].
  intros j Hj. rewrite Hd'. apply Href. lia.
Qed.

(** The block takes the first [r] samples, leaves the samples from [r]
    to [j - 1] and takes sample [j]: [reject!] raises with the [r]
    removals made and the semaphore released. *)
Lemma reject_signals blk w r j :
  bounded w → (r < j)%nat → Z.of_nat j < w_length w →
  (∀ i, 0 ≤ i < Z.of_nat r → accepts blk (reject_sample w i) = true) →
  (∀ i, Z.of_nat r ≤ i < Z.of_nat j → refuses blk (reject_sample w i) = true) →
  accepts blk (reject_sample w (Z.of_nat j)) = true →
  semian_simple_sliding_window_reject (Some blk) (unlocked w) =
    Raised (rb_eArgError "reject! must delete monotonically")
      (unlocked (remove_fronts r w)).
Proof.
  intros Hw Hrj Hj Hacc Href Hgap. pose proof Hw as [Hc Hl Hs He Hd].
  destruct (remove_fronts_bounded r w Hw ltac:(lia)) as (Hb' & _ & Hd').
  unfold semian_simple_sliding_window_reject, unlocked. cbn [rb_need_block]. run.
  replace (Z.to_nat (w_length w))
    with (r + ((j - r) + S (Z.to_nat (w_length w) - S j)))%nat by lia.
  unfold bind at 1. rewrite reject_loop_app.
  erewrite bind_done;
    [|apply (reject_loop_accepts blk (w_start w) (w_length w)
               ltac:(lia) ltac:(lia) r 0 w); auto with lia].
  rewrite reject_loop_app.
  erewrite bind_done;
    [|apply (reject_loop_refuses blk (w_start w) (w_length w)
               ltac:(lia) ltac:(lia));
      [assumption|lia|lia|intros i Hi; rewrite Hd'; apply Href; lia]].
  cbn [reject_loop].
  replace (0 + Z.of_nat r + Z.of_nat (j - r)) with (Z.of_nat j) by lia.
  erewrite bind_raised; [reflexivity|].
  apply (reject_iteration_gap blk (w_start w) (w_length w) ltac:(lia) ltac:(lia));
    [assumption|lia|lia|].
  now rewrite Hd'.
Qed.

Lemma remove_fronts_kept r : ∀ w,
  w_max_size (remove_fronts r w) = w_max_size w ∧
  w_end (remove_fronts r w) = w_end w ∧
  w_length (remove_fronts r w) = w_length w - Z.of_nat r.
Proof.
  induction r as [|r IH]; intros w; cbn [remove_fronts].
  - split_and!; auto with lia.
  - destruct (IH (remove_front w)) as (Hc & He & Hl).
    rewrite Hc, He, Hl. unfold remove_front.
    cbn [set_length set_start w_max_size w_end w_length]. split_and!; lia.
Qed.

(** The last of the removals that empty a window computes
    [(start + 1) % 1]. *)
Lemma remove_fronts_all r : ∀ w,
  w_length w = Z.of_nat (S r) → w_start (remove_fronts (S r) w) = 0.
Proof.
  induction r as [|r IH]; intros w Hl.
  - cbn [remove_fronts remove_front set_length set_start w_start].
    rewrite Hl. apply Z.mod_1_r.
  - change (remove_fronts (S (S r)) w) with (remove_fronts (S r) (remove_front w)).
    apply IH. unfold remove_front. cbn [set_length w_length]. lia.
Qed.

(** A block that takes every sample empties the window and leaves
    [start] at 0: [end] is where the invariant wants it only if it is 0
    as well. *)
Lemma reject_all_leaves_end_behind blk w :
  bounded w → 1 ≤ w_length w → w_end w ≠ 0 →
  (∀ i, 0 ≤ i < w_length w → accepts blk (reject_sample w i) = true) →
  ∃ w',
    semian_simple_sliding_window_reject (Some blk) (unlocked w) =
      Done tt (unlocked w') ∧
    w_start w' = 0 ∧ w_length w' = 0 ∧ w_end w' = w_end w ∧
    w_max_size w' = w_max_size w ∧
    w_end w' ≠ (w_start w' + w_length w') `mod` w_max_size w'.
Proof.
  intros Hw Hpos Hend Hacc. pose proof Hw as [Hc Hl Hs He Hd].
  exists (remove_fronts (Z.to_nat (w_length w)) w).
  destruct (remove_fronts_kept (Z.to_nat (w_length w)) w) as (Hc' & He' & Hl').
  assert (Hs' : w_start (remove_fronts (Z.to_nat (w_length w)) w) = 0).
  { destruct (Z.to_nat (w_length w)) as [|r] eqn:Hr; [lia|].
    apply remove_fronts_all. lia. }
  split_and!; try assumption; try lia.
  - apply reject_returns; [assumption|lia| |].
    + intros i Hi. apply Hacc. lia.
    + intros i Hi. lia.
  - rewrite He', Hs', Hl', Hc'. rewrite Z2Nat.id, Z.sub_diag by lia.
    rewrite Z.mod_0_l by lia. assumption.
Qed.

(** The first sample makes the block raise: the exception leaves
    [reject!] with the semaphore held. *)
Lemma reject_block_raises blk w e :
  bounded w → 1 ≤ w_length w →
  blk (RB_INT2NUM (reject_sample w 0)) = Throws e →
  semian_simple_sliding_window_reject (Some blk) (unlocked w) = Raised e (locked w).
Proof.
  intros [Hc Hl Hs He Hd] Hpos Hblk.
  unfold semian_simple_sliding_window_reject, unlocked, locked. cbn [rb_need_block].
  run. unfold bind at 1.
  destruct (Z.to_nat (w_length w)) as [|n] eqn:Hn; [lia|].
  cbn [reject_loop]. unfold reject_iteration, reject_index.
  cbn [l_start l_length l_cleared l_i]. run.
  unfold bind at 1 2. unfold rb_yield. unfold reject_sample in Hblk.
  now rewrite Hblk.
Qed.

(** [last] on an empty window: the index is [start - 1], which lies
    before [data] when [start] is 0, unless the capacity is 1. *)
Lemma last_on_empty w :
  bounded w → w_length w = 0 →
  semian_simple_sliding_window_last (unlocked w) =
    if (w_start w =? 0) && (2 <=? w_max_size w) then Undefined (OutOfBounds (-1))
    else Done (Integer (w_data w !!! Z.to_nat ((w_start w - 1) `mod` w_max_size w)))
           (unlocked w).
Proof.
  intros [Hc Hl Hs He Hd] Hlen.
  unfold semian_simple_sliding_window_last, unlocked.
  destruct (Z.eqb_spec (w_start w) 0) as [Hz|Hnz]; cbn [andb].
  - run. rewrite Hz, Hlen. change (0 + 0 - 1) with (- (1)).
    unfold bind at 1. unfold int_rem.
    destruct (Z.eqb_spec (w_max_size w) 0); [lia|].
    change (- (1) =? INT_MIN) with false. cbn [andb ret].
    destruct (Z.leb_spec 2 (w_max_size w)).
    + rewrite Z.rem_opp_l', Z.rem_small by lia. reflexivity.
    + replace (w_max_size w) with 1 by lia.
      change (Z.rem (- (1)) 1) with 0. change ((0 - 1) `mod` 1) with 0.
      run. reflexivity.
  - run. rewrite Hlen, Z.add_0_r. reflexivity.
Qed.

(** ** The bounds hold after every call *)

Lemma reject_bounded blk m :
  bounded (shm m) →
  match semian_simple_sliding_window_reject blk m with
  | Done _ m' | Raised _ m' => bounded (shm m')
  | Blocked | Undefined _ => True
  end.
Proof.
  intros Hb. destruct blk as [b|]; [|exact Hb].
  destruct m as [w [|]]; [exact I|].
  apply post_observed.
  unfold semian_simple_sliding_window_reject. cbn [rb_need_block].
  apply post_bind, post_ret, post_bind, post_sem_meta_lock; [reflexivity|].
  do 2 (apply post_bind, post_rd). apply post_bind.
  eapply post_weaken;
    [apply (reject_loop_invariant (Z.to_nat (w_length w)) b (reject_entry w) (locked w)),
       reject_entry_invariant|..]; cbv beta.
  - intros l' m' (_ & _ & _ & _ & _ & _ & Hb'). apply post_sem_meta_unlock.
    now apply Hb'.
  - intros e m' Hb'. now apply Hb'.
  - trivial.
Qed.

Lemma last_unchanged w :
  post (semian_simple_sliding_window_last (unlocked w))
    (λ _ m', m' = unlocked w) (λ _ _, False) (λ _, True).
Proof.
  unfold semian_simple_sliding_window_last.
  apply post_bind, post_sem_meta_lock; [reflexivity|].
  repeat wp_step; trivial.
Qed.

Lemma perform_bounded c m :
  bounded (shm m) →
  match perform MAX c m with
  | Done _ m' | Raised _ m' => bounded (shm m')
  | Blocked | Undefined _ => True
  end.
Proof.
  intros Hb. destruct c as [max_size| | | | |value| |blk].
  - apply post_observed.
    unfold perform, semian_simple_sliding_window_initialize, check_max_size_arg.
    pose proof Hb as [Hb1 Hb2 Hb3 Hb4 Hb5].
    destruct max_size; repeat wp_step; try assumption.
    all: repeat match goal with
           | H : (_ <=? _) = false |- _ => apply Z.leb_gt in H
           | H : (_ >? _) = false |- _ => rewrite Z.gtb_ltb in H; apply Z.ltb_ge in H
           end.
    all: split; simpl; lia.
  - destruct m as [w [|]]; [exact I|exact Hb].
  - destruct m as [w [|]]; [exact I|exact Hb].
  - destruct m as [w [|]]; [exact I|].
    cbn [perform]. erewrite bind_done by (now apply values_run). exact Hb.
  - destruct m as [w [|]]; [exact I|].
    cbn [perform]. unfold bind.
    pose proof (last_unchanged w) as Hlast. unfold unlocked in Hlast.
    destruct (semian_simple_sliding_window_last _); simpl in Hlast;
      try exact I; try contradiction.
    subst. exact Hb.
  - destruct m as [w [|]]; [exact I|]. cbn [perform].
    change {| shm := w; sem_held := false |} with (unlocked w) in *.
    cbn [unlocked shm] in Hb.
    destruct (conversion_cases value) as [(z & Hz & _)|(e & He)].
    + rewrite (push_converts value z) by assumption. now apply pushed_bounded.
    + rewrite (push_raises value e) by assumption.
      now apply push_interrupted_bounded.
  - destruct m as [w [|]]; [exact I|].
    destruct Hb. split; simpl in *; lia.
  - now apply reject_bounded.
Qed.

Lemma states_bounded cs m :
  bounded (shm m) → Forall (λ m', bounded (shm m')) (states MAX cs m).
Proof.
  revert m. induction cs as [|c cs IH]; intros m Hb; [constructor|].
  cbn [states]. pose proof (perform_bounded c m Hb) as Hc.
  destruct (perform MAX c m); try constructor; auto.
Qed.

(** ** The capacity bound *)

Lemma pushed_full_length v w :
  w_length w = w_max_size w → w_length (pushed v w) = w_max_size (pushed v w).
Proof.
  intros Hfull. unfold pushed. cbn [w_length w_max_size].
  rewrite (proj2 (Z.eqb_eq _ _) Hfull). lia.
Qed.

(** X18: whatever the calls after [initialize], [length] stays within
    the capacity, after a return as after a raise; a push on a full
    window within its bounds leaves it full, and where [end] is at
    [(start + length) mod capacity] it removes the sample at the front
    and keeps [end] there. *)
Theorem length_within_capacity w0 c cs w v :
  Z.of_nat (length (w_data w0)) = MAX → 1 ≤ c ≤ MAX →
  bounded w → w_length w = w_max_size w → in_int v = true →
  Forall (λ m', 0 ≤ w_length (shm m') ≤ w_max_size (shm m'))
    (states MAX (Initialize (Integer c) :: cs) (unlocked w0))
  ∧ ∃ w',
      semian_simple_sliding_window_push (Integer v) (unlocked w) =
        Done tt (unlocked w') ∧
      w_length w' = w_max_size w' ∧
      (w_end w = (w_start w + w_length w) `mod` w_max_size w →
       window_values w' = drop 1 (window_values w) ++ [v] ∧
       w_end w' = (w_start w' + w_length w') `mod` w_max_size w').
Proof.
  intros Hd Hc Hw Hfull Hv. split.
  - cbn [states perform]. rewrite initialize_run by assumption.
    assert (Hb : bounded (shm (with_shm (initialized c) (unlocked w0)))).
    { now apply initialized_consistent. }
    constructor; [destruct Hb; assumption|].
    eapply Forall_impl; [now apply states_bounded|].
    intros m' []. assumption.
  - exists (pushed v w). split_and!.
    + now apply push_run.
    + now apply pushed_full_length.
    + intros Hend. assert (Hcons : consistent w) by now split.
      split.
      * rewrite window_values_pushed by assumption.
        apply Z.eqb_eq in Hfull. now rewrite Hfull.
      * now apply pushed_consistent.
Qed.

(** The calls that return, [reject!] apart, keep [end] in its place. *)
Lemma perform_consistent c m m' :
  (∀ blk, c ≠ Reject blk) → consistent (shm m) →
  perform MAX c m = Done tt m' → consistent (shm m').
Proof.
  intros Hc Hw. pose proof Hw as [Hb Hend].
  destruct c as [max_size| | | | |value| |blk]; cbn [perform].
  - unfold semian_simple_sliding_window_initialize, check_max_size_arg.
    apply (post_done (λ _ m1, consistent (shm m1)) (λ _ _, True) (λ _, True)).
    destruct Hb as [Hb1 Hb2 Hb3 Hb4 Hb5].
    destruct max_size; repeat wp_step; trivial.
    all: repeat match goal with
           | H : (_ <=? _) = false |- _ => apply Z.leb_gt in H
           | H : (_ >? _) = false |- _ => rewrite Z.gtb_ltb in H; apply Z.ltb_ge in H
           end.
    all: apply (initialized_consistent _ (shm m)); simpl; lia.
  - destruct m as [w [|]]; [discriminate|]. now intros [= <-].
  - destruct m as [w [|]]; [discriminate|]. now intros [= <-].
  - destruct m as [w [|]]; [discriminate|].
    erewrite bind_done by (now apply values_run). now intros [= <-].
  - destruct m as [w [|]]; [discriminate|]. unfold bind.
    pose proof (last_unchanged w) as Hlast. unfold unlocked in Hlast.
    destruct (semian_simple_sliding_window_last _); simpl in Hlast;
      try discriminate.
    subst. now intros [= <-].
  - destruct m as [w [|]]; [discriminate|].
    change {| shm := w; sem_held := false |} with (unlocked w) in *.
    cbn [unlocked shm] in *.
    destruct (conversion_cases value) as [(z & Hz & _)|(e & He)].
    + rewrite (push_converts value z) by assumption.
      intros [= <-]. now apply pushed_consistent.
    + rewrite (push_raises value e) by assumption. discriminate.
  - destruct m as [w [|]]; [discriminate|]. intros [= <-].
    apply (initialized_consistent (w_max_size w) w); destruct Hb; simpl in *; lia.
  - now destruct (Hc blk).
Qed.

(** * Further properties of the code *)

(** ** check_max_size_arg and initialize *)

(** X1: [check_max_size_arg] returns exactly on [nil], for which it
    returns [SLIDING_WINDOW_MAX_SIZE], and on a value that gives a number
    from 1 to [SLIDING_WINDOW_MAX_SIZE], which it returns: an Integer, a
    Float by its integral part, a value with [to_int] by what this
    gives.  It never touches the machine state and never waits; its
    behaviour is undefined exactly on a Float whose integral part is no
    [int]. *)
Theorem check_max_size_arg_accepts v m :
  (∀ c m', check_max_size_arg MAX v m = Done c m' ↔
           m' = m ∧ 1 ≤ c ≤ MAX ∧
           (v = Integer c ∨ (v = Qnil ∧ c = MAX) ∨
            (∃ d, v = Float d ∧ truncate d = Some c) ∨
            v = Convertible (Gives c))) ∧
  (∀ e m', check_max_size_arg MAX v m = Raised e m' → m' = m) ∧
  (∀ u, check_max_size_arg MAX v m = Undefined u ↔
        u = FloatToInt ∧ ∃ d, v = Float d ∧ int_of_double d = None) ∧
  check_max_size_arg MAX v m ≠ Blocked.
Proof.
  assert (Hint : ∀ c, 1 ≤ c ≤ MAX → in_int c = true).
  { intros c Hc. apply in_int_true. unfold INT_MIN, INT_MAX. lia. }
  unfold check_max_size_arg, RB_NUM2INT, int_cast, rb_warn, int_of_double,
    bind, ret, rb_raise, undefined.
  destruct v as [| | |z| |d|[z|e]]; cbn [rb_num2int].
  all: repeat case_match; simplify_eq.
  all: repeat match goal with
         | H : (_ <=? _) = true |- _ => apply Z.leb_le in H
         | H : (_ <=? _) = false |- _ => apply Z.leb_gt in H
         | H : (_ >? _) = true |- _ => rewrite Z.gtb_ltb in H; apply Z.ltb_lt in H
         | H : (_ >? _) = false |- _ => rewrite Z.gtb_ltb in H; apply Z.ltb_ge in H
         end.
  all: split_and!; [intros c m'; split|..]; try discriminate.
  all: try (intros; simplify_eq; reflexivity).
  all: try (intros (? & ? & [?|[[? ?]|[(? & ? & ?)|?]]]); simplify_eq; try lia; try reflexivity).
  all: try (split; [discriminate|intros (? & ? & ? & ?); simplify_eq]).
  all: try (intros ?; simplify_eq; split_and!; eauto with lia).
  all: try (pose proof (Hint _ ltac:(eassumption)); congruence).
  all: try (intros [-> _]; reflexivity).
  all: try (right; right; left; eexists; split; [reflexivity|eassumption]).
  all: try (intros [= <-]; split; [reflexivity|]; eexists; split; [reflexivity|]).
  all: repeat match goal with
         | H : truncate ?x = _, H' : context [truncate ?x] |- _ => rewrite H in H'
         | H : truncate ?x = _ |- context [truncate ?x] => rewrite H
         | H : in_int ?x = _, H' : context [in_int ?x] |- _ => rewrite H in H'
         | H : in_int ?x = _ |- context [in_int ?x] => rewrite H
         end; try discriminate; try reflexivity.
Qed.

(** X2: [initialize] with a capacity from 1 to [SLIDING_WINDOW_MAX_SIZE]
    returns whatever the window holds and whoever holds the semaphore: it
    sets the capacity, empties the window, keeps [data] and the
    semaphore as they are; [size] is then 0 and [values] empty. *)
Theorem initialize_discards_samples c m :
  1 ≤ c ≤ MAX →
  ∃ m',
    semian_simple_sliding_window_initialize MAX (Integer c) m = Done tt m' ∧
    sem_held m' = sem_held m ∧
    shm m' = {| w_max_size := c; w_length := 0; w_start := 0; w_end := 0;
                w_data := w_data (shm m) |} ∧
    (sem_held m = false →
     semian_simple_sliding_window_size m' = Done (Integer 0) m' ∧
     semian_simple_sliding_window_values m' = Done [] m').
Proof.
  intros Hc. exists (with_shm (initialized c) m).
  split_and!; [now apply initialize_run|reflexivity|reflexivity|].
  intros Hfree. destruct m as [w held]. cbn [sem_held] in Hfree. subst held.
  split; reflexivity.
Qed.

(** On a value that converts, nil apart, [check_max_size_arg] checks
    the number it converts to; the cast of a Float gives the same number
    as [RB_NUM2INT] wherever this converts. *)
Lemma check_max_size_arg_converts v c m :
  rb_num2int v = inl c →
  check_max_size_arg MAX v m =
    if c <=? 0 then Raised (rb_eArgError "max_size must be greater than zero") m
    else if c >? MAX then
      Raised (rb_eArgError ("max_size cannot be greater than " +:+ pretty MAX)) m
    else Done c m.
Proof.
  intros Hv. unfold check_max_size_arg.
  destruct v as [| | |z| |d|[z|e]]; try discriminate.
  - unfold bind at 1. rewrite (RB_NUM2INT_converts _ c) by assumption.
    destruct (c <=? 0); [reflexivity|]. now destruct (c >? MAX).
  - unfold bind at 1. cbn [bind rb_warn ret]. unfold int_cast, int_of_double.
    simpl in Hv. destruct (truncate d) as [z|]; [|discriminate].
    destruct (in_int z); [|discriminate]. injection Hv as ->.
    cbn [ret]. destruct (c <=? 0); [reflexivity|]. now destruct (c >? MAX).
  - unfold bind at 1. rewrite (RB_NUM2INT_converts _ c) by assumption.
    destruct (c <=? 0); [reflexivity|]. now destruct (c >? MAX).
Qed.

Lemma check_max_size_arg_fails v e m :
  rb_num2int v = inr e → v ≠ Qnil → (∀ d, v ≠ Float d) →
  check_max_size_arg MAX v m = Raised e m.
Proof.
  intros Hv Hnil Hfloat. unfold check_max_size_arg.
  destruct v as [| | |z| |d|[z|e']]; try congruence;
    try (unfold bind at 1; unfold RB_NUM2INT; now rewrite Hv).
Qed.

(** X3: [initialize] writes nothing when it raises: the window keeps its
    capacity and its samples.  It raises the ArgumentError for a number
    that is not positive on a value that converts to 0 or less, the one
    that names [SLIDING_WINDOW_MAX_SIZE] on a value that converts to more
    than it, and the exception of the conversion on a value that is
    neither [nil] nor a Float and does not convert (a RangeError for an
    Integer that is no [int], a TypeError for a boolean or a value
    without [to_int]). *)
Theorem initialize_refuses_capacity v m :
  (∀ e m', semian_simple_sliding_window_initialize MAX v m = Raised e m' → m' = m) ∧
  (∀ c, rb_num2int v = inl c → c ≤ 0 →
        semian_simple_sliding_window_initialize MAX v m =
          Raised (rb_eArgError "max_size must be greater than zero") m) ∧
  (∀ c, rb_num2int v = inl c → 0 < c → MAX < c →
        semian_simple_sliding_window_initialize MAX v m =
          Raised (rb_eArgError ("max_size cannot be greater than " +:+ pretty MAX)) m) ∧
  (∀ e, rb_num2int v = inr e → v ≠ Qnil → (∀ d, v ≠ Float d) →
        semian_simple_sliding_window_initialize MAX v m = Raised e m).
Proof.
  split_and!.
  - intros e m' Hr.
    assert (Hpost : post (semian_simple_sliding_window_initialize MAX v m)
                      (λ _ _, True) (λ _ m', m' = m) (λ _, True)).
    { unfold semian_simple_sliding_window_initialize, check_max_size_arg.
      destruct v; repeat wp_step; trivial. }
    rewrite Hr in Hpost. exact Hpost.
  - intros c Hv Hc. unfold semian_simple_sliding_window_initialize.
    unfold bind at 1. rewrite (check_max_size_arg_converts v c) by assumption.
    destruct (Z.leb_spec c 0); [reflexivity|lia].
  - intros c Hv Hc Hmax. unfold semian_simple_sliding_window_initialize.
    unfold bind at 1. rewrite (check_max_size_arg_converts v c) by assumption.
    destruct (Z.leb_spec c 0); [lia|].
    destruct (Z.gtb_spec c MAX); [reflexivity|lia].
  - intros e Hv Hnil Hfloat. unfold semian_simple_sliding_window_initialize.
    unfold bind at 1. now rewrite (check_max_size_arg_fails v e).
Qed.

(** ** clear *)

(** X4: [clear] sets [length], [start] and [end] to 0 whatever the
    window holds and keeps the capacity and [data], so that [size] is 0
    and [values] empty; a push of [v] after it makes [values] return [v]
    alone and [last] return [v]. *)
Theorem clear_then_push w v :
  bounded w → in_int v = true →
  ∃ w1 w2,
    semian_simple_sliding_window_clear (unlocked w) = Done tt (unlocked w1) ∧
    w1 = {| w_max_size := w_max_size w; w_length := 0; w_start := 0; w_end := 0;
            w_data := w_data w |} ∧
    semian_simple_sliding_window_size (unlocked w1) = Done (Integer 0) (unlocked w1) ∧
    semian_simple_sliding_window_values (unlocked w1) = Done [] (unlocked w1) ∧
    semian_simple_sliding_window_push (Integer v) (unlocked w1) =
      Done tt (unlocked w2) ∧
    semian_simple_sliding_window_values (unlocked w2) =
      Done [Integer v] (unlocked w2) ∧
    semian_simple_sliding_window_last (unlocked w2) =
      Done (Integer v) (unlocked w2).
Proof.
  intros Hw Hv. pose proof Hw as [Hc Hl Hs He Hd].
  assert (Hw1 : consistent (initialized (w_max_size w) w)).
  { apply initialized_consistent; assumption. }
  assert (Hw2 : consistent (pushed v (initialized (w_max_size w) w))).
  { now apply pushed_consistent. }
  assert (Hvals : window_values (pushed v (initialized (w_max_size w) w)) = [v]).
  { rewrite window_values_pushed by assumption. cbn [initialized w_length w_max_size].
    destruct (Z.eqb_spec 0 (w_max_size w)); [lia|]. reflexivity. }
  exists (initialized (w_max_size w) w), (pushed v (initialized (w_max_size w) w)).
  split_and!; try reflexivity.
  - apply push_run; [apply Hw1|assumption].
  - rewrite values_run by apply Hw2. now rewrite Hvals.
  - rewrite last_run; [|apply Hw2|].
    + destruct (window_values_lookup
                  (pushed v (initialized (w_max_size w) w))
                  (w_length (pushed v (initialized (w_max_size w) w)) - 1))
        as (x & Hx & Hlast); [apply Hw2| |].
      * cbn [pushed initialized w_length w_max_size].
        destruct (Z.eqb_spec 0 (w_max_size w)); lia.
      * rewrite Hvals in Hlast.
        cbn [pushed initialized w_length w_max_size] in Hlast.
        destruct (Z.eqb_spec 0 (w_max_size w)); [lia|].
        simpl in Hlast. injection Hlast as <-.
        do 2 f_equal. unfold sample.
        apply list_lookup_total_correct.
        cbn [pushed initialized w_length w_max_size w_start w_end w_data] in *.
        destruct (Z.eqb_spec 0 (w_max_size w)); [lia|]. exact Hx.
    + cbn [pushed initialized w_length w_max_size].
      destruct (Z.eqb_spec 0 (w_max_size w)); lia.
Qed.

(** ** push, size, values and last together *)

(** X5: after [initialize] with capacity [c] and any pushes of integers,
    [values] returns the last [min (n, c)] of them in the order of the
    pushes and [size] returns [min (n, c)]. *)
Theorem values_keep_latest w0 c vs :
  Z.of_nat (length (w_data w0)) = MAX → 1 ≤ c ≤ MAX →
  Forall (λ x, in_int x = true) vs →
  ∃ m,
    perform_all MAX (Initialize (Integer c) :: pushes vs) (unlocked w0) = Done tt m ∧
    semian_simple_sliding_window_values m =
      Done (Integer <$> drop (length vs - Z.to_nat c) vs) m ∧
    semian_simple_sliding_window_size m =
      Done (Integer (Z.min (Z.of_nat (length vs)) c)) m.
Proof.
  intros Hd Hc Hvs.
  destruct (pushes_run vs (initialized c w0)) as (w' & Hrun & Hw' & _ & Hvals);
    [now apply initialized_consistent|assumption|].
  exists (unlocked w'). split_and!.
  - cbn [perform_all perform].
    erewrite bind_done by (now apply initialize_run). exact Hrun.
  - rewrite values_run by apply Hw'. now rewrite Hvals.
  - rewrite size_run. do 2 f_equal.
    pose proof (length_window_values w') as Hlen.
    rewrite Hvals in Hlen. unfold trim in Hlen. simpl in Hlen.
    rewrite length_drop in Hlen. destruct Hw' as [[] _]. lia.
Qed.

(** X6: on a window that keeps [end] at [(start + length) mod capacity],
    [last] after a push of [v] returns [v]. *)
Theorem push_then_last w v :
  consistent w → in_int v = true →
  (semian_simple_sliding_window_push (Integer v) >>
   semian_simple_sliding_window_last) (unlocked w) =
    Done (Integer v) (unlocked (pushed v w)).
Proof.
  intros Hw Hv. pose proof (pushed_consistent v w Hw) as [Hb' _].
  pose proof Hw as [[Hc Hl Hs He Hd] _].
  assert (Hpos : 0 < w_length (pushed v w)).
  { unfold pushed. cbn [w_length].
    destruct (Z.eqb_spec (w_length w) (w_max_size w)); lia. }
  erewrite bind_done by (apply push_run; [apply Hw|assumption]).
  rewrite last_run by assumption. do 2 f_equal.
  destruct (window_values_lookup (pushed v w) (w_length (pushed v w) - 1))
    as (x & Hx & Hlast); [assumption|lia|].
  rewrite window_values_pushed in Hlast by assumption.
  assert (Hlen : length (window_values (pushed v w)) = Z.to_nat (w_length (pushed v w)))
    by apply length_window_values.
  rewrite window_values_pushed in Hlen by assumption.
  rewrite length_app in Hlen. change (length [v]) with 1%nat in Hlen.
  rewrite lookup_app_r in Hlast by lia.
  match type of Hlast with
  | _ !! ?n = _ => replace n with 0%nat in Hlast by lia
  end.
  injection Hlast as <-. unfold sample.
  now apply list_lookup_total_correct.
Qed.

(** X7: a push on a window that is not full evicts nothing: [values]
    gains the new sample at the back, [start] stays, and [end] stays at
    [(start + length) mod capacity]. *)
Theorem push_appends_below_capacity w v :
  consistent w → w_length w < w_max_size w → in_int v = true →
  ∃ w',
    semian_simple_sliding_window_push (Integer v) (unlocked w) = Done tt (unlocked w') ∧
    window_values w' = window_values w ++ [v] ∧
    w_length w' = w_length w + 1 ∧ w_start w' = w_start w ∧
    w_end w' = (w_start w' + w_length w') `mod` w_max_size w'.
Proof.
  intros Hw Hlt Hv. exists (pushed v w).
  assert (Hne : (w_length w =? w_max_size w) = false) by (apply Z.eqb_neq; lia).
  split_and!.
  - apply push_run; [apply Hw|assumption].
  - rewrite window_values_pushed by assumption. now rewrite Hne.
  - unfold pushed. cbn [w_length]. now rewrite Hne.
  - unfold pushed. cbn [w_start]. now rewrite Hne.
  - now apply pushed_consistent.
Qed.

(** X8: on a window within its bounds a push returns exactly when its
    argument gives a number that fits a C [int], which it stores: an
    Integer, a Float by its integral part, a value with [to_int] by what
    this gives. *)
Theorem push_accepts_ints w value :
  bounded w →
  ∀ m', semian_simple_sliding_window_push value (unlocked w) = Done tt m' ↔
        ∃ z, (value = Integer z ∨ (∃ d, value = Float d ∧ truncate d = Some z) ∨
              value = Convertible (Gives z)) ∧
             INT_MIN ≤ z ≤ INT_MAX ∧ m' = unlocked (pushed z w).
Proof.
  intros Hw m'. split.
  - intros Hrun.
    destruct (conversion_cases value) as [(z & Hz & Hint)|(e & He)].
    + rewrite (push_converts value z) in Hrun by assumption.
      injection Hrun as <-. exists z.
      apply rb_num2int_inl in Hz as [_ Hz].
      split; [assumption|]. split; [now apply in_int_bounds|reflexivity].
    + rewrite (push_raises value e) in Hrun by assumption. discriminate.
  - intros (z & Hz & Hint & ->).
    apply push_converts; [assumption|].
    apply rb_num2int_inl. split; [now apply in_int_true|assumption].
Qed.

(** ** What reject! leaves alone *)

Lemma only_front_moved_refl w : only_front_moved w w.
Proof. unfold only_front_moved. auto with lia. Qed.

Lemma only_front_moved_trans w1 w2 w3 :
  only_front_moved w1 w2 → only_front_moved w2 w3 → only_front_moved w1 w3.
Proof.
  unfold only_front_moved. intros (-> & -> & -> & ?) (-> & -> & -> & ?).
  auto with lia.
Qed.

Lemma reject_loop_keeps k blk : ∀ l m,
  post (reject_loop k blk l m)
    (λ _ m', only_front_moved (shm m) (shm m'))
    (λ _ m', only_front_moved (shm m) (shm m'))
    (λ _, True).
Proof.
  induction k as [|k IH]; intros l m.
  - apply only_front_moved_refl.
  - cbn [reject_loop]. apply post_bind.
    eapply post_weaken; [apply reject_iteration_cases|..]; cbv beta.
    + intros l1 m1 (_ & _ & _ & _ & _ & Hcase).
      assert (Hstep : only_front_moved (shm m) (shm m1)).
      { destruct Hcase as [[_ ->]|(_ & _ & _ & ->)];
          [apply only_front_moved_refl|].
        unfold only_front_moved.
        cbn [set_length set_start w_max_size w_end w_data w_length]. auto with lia. }
      eapply post_weaken; [apply IH|..]; cbv beta; eauto using only_front_moved_trans.
    + intros e m' ->. apply only_front_moved_refl.
    + trivial.
Qed.

(** ** What each turn of reject! hands to the block *)

Lemma rb_yield_raises blk v e m : blk v = Throws e → rb_yield blk v m = Raised e m.
Proof. intros H. unfold rb_yield. now rewrite H. Qed.

(** C4, as amended: before turn [k] of [reject!] the locals [start] and
    [length] are what the window had on entry, whatever was removed
    since, and the [length] of the window, which is the divisor when
    [start] advances, has gone down by one for each removal.  On a
    window within its bounds the block is handed [data[(start + k) %
    length]] for these locals, and the turn does what the block's answer
    on this sample says: it leaves by the block's exception, keeps the
    sample, raises for a removal that is not monotonic, or removes the
    sample at the front. *)
Theorem reject_reads_with_entry_length blk w k l m' :
  (k < Z.to_nat (w_length w))%nat →
  reject_loop k blk (reject_entry w) (locked w) = Done l m' →
  l_start l = w_start w ∧ l_length l = w_length w ∧ l_i l = Z.of_nat k ∧
  0 ≤ l_cleared l ≤ Z.of_nat k ∧
  w_length (shm m') = w_length w - l_cleared l ∧
  (bounded w →
   reject_iteration blk l m' =
     match blk (RB_INT2NUM
                  (w_data w !!! Z.to_nat ((w_start w + Z.of_nat k) `mod` w_length w))) with
     | Throws e => Raised e m'
     | Returns y =>
         if RTEST y then
           if l_cleared l =? Z.of_nat k then
             Done {| l_start := w_start w; l_length := w_length w;
                     l_cleared := l_cleared l + 1; l_i := Z.of_nat k + 1 |}
               (with_shm
                  (λ w', set_length (w_length w - l_cleared l - 1)
                           (set_start ((w_start w' + 1) `mod` (w_length w - l_cleared l)) w'))
                  m')
           else
             Raised (rb_eArgError "reject! must delete monotonically")
               {| shm := shm m'; sem_held := false |}
         else
           Done {| l_start := w_start w; l_length := w_length w;
                   l_cleared := l_cleared l; l_i := Z.of_nat k + 1 |} m'
     end).
Proof.
  intros Hk Hrun.
  destruct (reject_loop_from_entry blk w k l m' ltac:(lia) Hrun)
    as (Hls & Hll & Hli & Hcl & Hlen).
  split_and!; try assumption; try lia.
  intros Hw. pose proof Hw as [Hc Hl Hs He Hd].
  assert (Hinv : reject_invariant k (reject_entry w) (locked w)).
  { unfold reject_invariant, reject_entry. simpl. lia. }
  pose proof (post_done _ _ _ _ _ _ (reject_loop_invariant k blk _ _ Hinv) Hrun)
    as (_ & _ & _ & _ & _ & _ & Hb').
  specialize (Hb' MAX Hw).
  pose proof (post_done _ _ _ _ _ _ (reject_loop_keeps k blk _ _) Hrun)
    as (Hcap' & Hend' & Hdata' & _).
  destruct l as [ls ll lc li]. destruct m' as [[cap' len' s' e' d'] held].
  cbn [l_start l_length l_cleared l_i shm locked
       w_max_size w_length w_start w_end w_data] in *.
  subst ls ll li len' d' cap' e'. destruct Hb' as [Hc' Hl' Hs' He' Hd'].
  cbn [w_max_size w_length w_start w_end w_data] in *.
  unfold reject_iteration, reject_index.
  cbn [l_start l_length l_cleared l_i].
  destruct (blk _) as [y|e] eqn:Hblk.
  - run. destruct (RTEST y).
    + run. destruct (Z.eqb_spec lc (Z.of_nat k)) as [->|Hne]; cbn [negb]; run.
      * reflexivity.
      * reflexivity.
    + run. reflexivity.
  - run. unfold bind at 1. erewrite rb_yield_raises by eassumption. reflexivity.
Qed.

Lemma reject_moves_only_front_aux blk w :
  match semian_simple_sliding_window_reject blk (unlocked w) with
  | Done _ m' | Raised _ m' => only_front_moved w (shm m')
  | Blocked => False
  | Undefined _ => True
  end.
Proof.
  destruct blk as [b|]; [|apply only_front_moved_refl].
  rewrite reject_unfold. unfold bind.
  pose proof (reject_loop_keeps (Z.to_nat (w_length w)) b (reject_entry w) (locked w))
    as Hloop.
  destruct (reject_loop _ _ _ _); simpl in Hloop; try assumption.
Qed.

(** X9: whatever the window and the block, [reject!] changes nothing
    but [start] and [length], in a return as in a raise: the capacity,
    [end] and [data] are as before and [length] has not grown. *)
Theorem reject_moves_only_front blk w :
  match semian_simple_sliding_window_reject blk (unlocked w) with
  | Done _ m' | Raised _ m' => only_front_moved w (shm m')
  | Blocked => False
  | Undefined _ => True
  end.
Proof. apply reject_moves_only_front_aux. Qed.

(** ** The semaphore on the paths that return *)

Lemma bind_done_inv {A B} (x : M A) (f : A → M B) m b m' :
  bind x f m = Done b m' → ∃ a m1, x m = Done a m1 ∧ f a m1 = Done b m'.
Proof. unfold bind. destruct (x m); try discriminate. eauto. Qed.

Lemma check_max_size_arg_pure v m c m' :
  check_max_size_arg MAX v m = Done c m' → m' = m.
Proof.
  apply (post_done (λ _ m1, m1 = m) (λ _ _, True) (λ _, True)).
  unfold check_max_size_arg. destruct v; repeat wp_step; trivial.
Qed.

Lemma perform_releases c w m' :
  perform MAX c (unlocked w) = Done tt m' → sem_held m' = false.
Proof.
  intros Hrun. destruct c as [max_size| | | | |value| |blk]; cbn [perform] in Hrun.
  + unfold semian_simple_sliding_window_initialize in Hrun.
    apply bind_done_inv in Hrun as (c & m1 & Hcheck & Hrun).
    apply check_max_size_arg_pure in Hcheck as ->. now injection Hrun as <-.
  + now injection Hrun as <-.
  + now injection Hrun as <-.
  + apply bind_done_inv in Hrun as (vs & m1 & Hrun & Hret).
    injection Hret as <-.
    unfold semian_simple_sliding_window_values in Hrun.
    apply bind_done_inv in Hrun as (? & m2 & _ & Hrun).
    apply bind_done_inv in Hrun as (len & m3 & _ & Hrun).
    apply bind_done_inv in Hrun as (ary & m4 & _ & Hrun).
    apply bind_done_inv in Hrun as (retval & m5 & _ & Hrun).
    now injection Hrun as _ <-.
  + apply bind_done_inv in Hrun as (v & m1 & Hrun & Hret).
    injection Hret as <-.
    unfold semian_simple_sliding_window_last in Hrun.
    do 8 (apply bind_done_inv in Hrun as (? & ? & _ & Hrun)).
    now injection Hrun as _ <-.
  + unfold semian_simple_sliding_window_push in Hrun.
    do 15 (apply bind_done_inv in Hrun as (? & ? & _ & Hrun)).
    now injection Hrun as <-.
  + now injection Hrun as <-.
  + destruct blk as [b|]; [|discriminate].
    rewrite reject_unfold in Hrun.
    apply bind_done_inv in Hrun as (? & ? & _ & Hrun).
    now injection Hrun as <-.
Qed.

(** X10: a call that finds the semaphore held waits, [initialize] and a
    [reject!] without a block apart; a call that returns leaves the
    semaphore free, so that the next call does not wait. *)
Theorem semaphore_free_after_return c w :
  (is_initialize c = false → c ≠ Reject None → perform MAX c (locked w) = Blocked) ∧
  (∀ m', perform MAX c (unlocked w) = Done tt m' → sem_held m' = false).
Proof.
  split.
  - intros Hi Hr. destruct c as [| | | | | | |[b|]]; try reflexivity; [discriminate|congruence].
  - apply perform_releases.
Qed.

(** ** No undefined behaviour within the bounds *)

Lemma post_step {A B} (x : M A) (f : A → M B) m a m1 Q R U :
  x m = Done a m1 → post (f a m1) Q R U → post (bind x f m) Q R U.
Proof. intros Hx Hf. apply post_bind. now rewrite Hx. Qed.

Lemma post_last {A} (x : M A) m a m1 Q R U :
  x m = Done a m1 → Q a m1 → post (x m) Q R U.
Proof. now intros ->. Qed.

Lemma post_conj {A} (r : result A) Q Q' R R' U U' :
  post r Q R U → post r Q' R' U' →
  post r (λ a m, Q a m ∧ Q' a m) (λ e m, R e m ∧ R' e m) (λ u, U u ∧ U' u).
Proof. destruct r; simpl; auto. Qed.

Lemma post_defined {A} (r : result A) Q R :
  post r Q R (λ _, False) → ∀ u, r ≠ Undefined u.
Proof. destruct r; simpl; intros H u' [=]. contradiction. Qed.

(** A step whose left side runs without a fault, or else a rule of the
    logic. *)
Ltac safe_run :=
  first
    [ apply int_add_run; int_bounds
    | apply int_sub_run; int_bounds
    | apply int_rem_run; int_bounds
    | apply data_load_run; int_bounds ].

Ltac safe_step :=
  first
    [ eapply post_step; [safe_run|]
    | eapply post_last; [safe_run|]
    | wp_step ].

Lemma reject_iteration_defined k blk l m :
  reject_invariant (S k) l m → bounded (shm m) →
  0 ≤ l_start l ≤ MAX → l_length l ≤ MAX → 0 ≤ l_cleared l →
  post (reject_iteration blk l m) (λ _ _, True) (λ _ _, True) (λ _, False).
Proof.
  intros (Hk & Hcl & Hlen) [Hb1 Hb2 Hb3 Hb4 Hb5] Hs Hl Hc.
  specialize (Hk ltac:(lia)).
  unfold reject_iteration, reject_index.
  repeat safe_step; trivial.
Qed.

Lemma reject_loop_defined k blk : ∀ l m,
  reject_invariant k l m → bounded (shm m) →
  0 ≤ l_start l ≤ MAX → l_length l ≤ MAX → 0 ≤ l_cleared l →
  post (reject_loop k blk l m) (λ _ _, True) (λ _ _, True) (λ _, False).
Proof.
  induction k as [|k IH]; intros l m Hinv Hb Hs Hl Hc; [exact I|].
  cbn [reject_loop]. apply post_bind.
  eapply post_weaken;
    [apply post_conj;
       [apply (reject_iteration_invariant k), Hinv
       |apply (reject_iteration_defined k); assumption]|..]; cbv beta.
  - intros l1 m1 ((Hinv1 & Hs1 & Hl1 & _ & _ & Hc1 & Hb1) & _).
    apply IH; auto; congruence.
  - trivial.
  - intros u [_ []].
Qed.

(** X11: on a window within its bounds no call runs into undefined
    behaviour (a division by zero, an overflow of [int], an index
    outside [data], a conversion of a [double] that does not fit), two
    calls apart: [last] on an empty window, and [initialize] with a Float
    whose integral part is no [int]. *)
Theorem calls_are_defined c m u :
  bounded (shm m) → (c = Last → 0 < w_length (shm m)) →
  (∀ d, c = Initialize (Float d) → int_of_double d ≠ None) →
  perform MAX c m ≠ Undefined u.
Proof.
  intros Hb Hlast Hfloat. destruct c as [max_size| | | | |value| |blk]; cbn [perform].
  - revert u. apply (post_defined _ (λ _ _, True) (λ _ _, True)).
    unfold semian_simple_sliding_window_initialize, check_max_size_arg.
    destruct max_size as [| | |z| |d|t]; try (repeat wp_step; trivial; fail).
    specialize (Hfloat d eq_refl). unfold int_cast.
    destruct (int_of_double d) as [z|]; [|congruence].
    repeat wp_step; trivial.
  - destruct m as [w [|]]; discriminate.
  - destruct m as [w [|]]; discriminate.
  - destruct m as [w [|]]; [discriminate|].
    erewrite bind_done by (now apply values_run). discriminate.
  - destruct m as [w [|]]; [discriminate|].
    erewrite bind_done by (apply last_run; [assumption|now apply Hlast]).
    discriminate.
  - destruct m as [w [|]]; [discriminate|].
    change {| shm := w; sem_held := false |} with (unlocked w) in *.
    cbn [unlocked shm] in Hb.
    destruct (conversion_cases value) as [(z & Hz & _)|(e & He)].
    + rewrite (push_converts value z) by assumption. discriminate.
    + rewrite (push_raises value e) by assumption. discriminate.
  - destruct m as [w [|]]; discriminate.
  - destruct blk as [b|]; [|discriminate].
    destruct m as [w [|]]; [discriminate|].
    change {| shm := w; sem_held := false |} with (unlocked w) in *.
    cbn [unlocked shm] in Hb. pose proof Hb as [Hb1 Hb2 Hb3 Hb4 Hb5].
    rewrite reject_unfold.
    revert u. apply (post_defined _ (λ _ _, True) (λ _ _, True)).
    apply post_bind.
    eapply post_weaken;
      [apply (reject_loop_defined (Z.to_nat (w_length w)) b (reject_entry w) (locked w));
         [apply reject_entry_invariant|assumption|simpl; lia|simpl; lia|simpl; lia]|..];
      cbv beta; trivial.
Qed.

(** ** What the calls keep from one to the next *)

Lemma perform_keeps_capacity c m m' :
  bounded (shm m) → is_initialize c = false →
  perform MAX c m = Done tt m' → w_max_size (shm m') = w_max_size (shm m).
Proof.
  intros Hb Hc. destruct c as [max_size| | | | |value| |blk]; [discriminate|..];
    cbn [perform].
  - destruct m as [w [|]]; [discriminate|]. now intros [= <-].
  - destruct m as [w [|]]; [discriminate|]. now intros [= <-].
  - destruct m as [w [|]]; [discriminate|].
    erewrite bind_done by (now apply values_run). now intros [= <-].
  - destruct m as [w [|]]; [discriminate|]. unfold bind.
    pose proof (last_unchanged w) as Hl. unfold unlocked in Hl.
    destruct (semian_simple_sliding_window_last _); simpl in Hl; try discriminate.
    subst. now intros [= <-].
  - destruct m as [w [|]]; [discriminate|].
    change {| shm := w; sem_held := false |} with (unlocked w) in *.
    cbn [unlocked shm] in *.
    destruct (conversion_cases value) as [(z & Hz & _)|(e & He)].
    + rewrite (push_converts value z) by assumption. now intros [= <-].
    + rewrite (push_raises value e) by assumption. discriminate.
  - destruct m as [w [|]]; [discriminate|]. now intros [= <-].
  - destruct m as [w [|]]; [destruct blk; discriminate|].
    intros Hrun. pose proof (reject_moves_only_front_aux blk w) as Hk.
    unfold unlocked in Hk. rewrite Hrun in Hk. apply Hk.
Qed.

Lemma perform_all_cons c cs m m' :
  perform_all MAX (c :: cs) m = Done tt m' →
  ∃ m1, perform MAX c m = Done tt m1 ∧ perform_all MAX cs m1 = Done tt m'.
Proof.
  cbn [perform_all]. intros H.
  apply bind_done_inv in H as ([] & m1 & Hc & Hcs). eauto.
Qed.

Lemma perform_all_keeps_capacity cs : ∀ w m',
  bounded w → forallb (λ c, negb (is_initialize c)) cs = true →
  perform_all MAX cs (unlocked w) = Done tt m' →
  sem_held m' = false ∧ w_max_size (shm m') = w_max_size w.
Proof.
  induction cs as [|c cs IH]; intros w m' Hb Hcs Hrun.
  - injection Hrun as <-. auto.
  - cbn [forallb] in Hcs. apply andb_prop in Hcs as [Hc Hcs].
    apply negb_true_iff in Hc.
    apply perform_all_cons in Hrun as (m1 & Hc1 & Hrun).
    pose proof (perform_releases c w m1 Hc1) as Hfree.
    pose proof (perform_keeps_capacity c (unlocked w) m1 Hb Hc Hc1) as Hcap.
    pose proof (perform_bounded c (unlocked w) Hb) as Hb1. rewrite Hc1 in Hb1.
    destruct m1 as [w1 held]. cbn [sem_held shm unlocked] in *. subst held.
    destruct (IH w1 m' Hb1 Hcs Hrun) as [Hfree' Hcap'].
    split; [assumption|congruence].
Qed.

(** X12: [max_size] returns the capacity the window was initialized
    with, after any calls that return, as long as none of them is
    another [initialize]. *)
Theorem max_size_is_initial_capacity w0 c cs m :
  Z.of_nat (length (w_data w0)) = MAX → 1 ≤ c ≤ MAX →
  forallb (λ c, negb (is_initialize c)) cs = true →
  perform_all MAX (Initialize (Integer c) :: cs) (unlocked w0) = Done tt m →
  semian_simple_sliding_window_max_size m = Done (Integer c) m.
Proof.
  intros Hd Hc Hcs Hrun.
  apply perform_all_cons in Hrun as (m1 & Hinit & Hrun).
  cbn [perform] in Hinit. rewrite initialize_run in Hinit by assumption.
  injection Hinit as <-.
  destruct (perform_all_keeps_capacity cs (initialized c w0) m) as [Hfree Hcap];
    [now apply initialized_consistent|assumption|exact Hrun|].
  destruct m as [w held]. cbn [sem_held shm initialized w_max_size] in *. subst.
  reflexivity.
Qed.

Lemma perform_all_consistent cs : ∀ m m',
  consistent (shm m) → forallb (λ c, negb (is_reject c)) cs = true →
  perform_all MAX cs m = Done tt m' → consistent (shm m').
Proof.
  induction cs as [|c cs IH]; intros m m' Hw Hcs Hrun.
  - now injection Hrun as <-.
  - cbn [forallb] in Hcs. apply andb_prop in Hcs as [Hc Hcs].
    apply negb_true_iff in Hc.
    apply perform_all_cons in Hrun as (m1 & Hc1 & Hrun).
    apply (IH m1 m'); [|assumption..].
    apply (perform_consistent c m m1); [|assumption..].
    intros blk ->. discriminate.
Qed.

(** X13: after [initialize] and any calls that return and are not a
    [reject!], [end] is at [(start + length) mod capacity], within the
    bounds of the window. *)
Theorem calls_keep_end_in_place w0 c cs m :
  Z.of_nat (length (w_data w0)) = MAX → 1 ≤ c ≤ MAX →
  forallb (λ c, negb (is_reject c)) cs = true →
  perform_all MAX (Initialize (Integer c) :: cs) (unlocked w0) = Done tt m →
  bounded (shm m) ∧
  w_end (shm m) = (w_start (shm m) + w_length (shm m)) `mod` w_max_size (shm m).
Proof.
  intros Hd Hc Hcs Hrun.
  apply perform_all_cons in Hrun as (m1 & Hinit & Hrun).
  cbn [perform] in Hinit. rewrite initialize_run in Hinit by assumption.
  injection Hinit as <-.
  apply (perform_all_consistent cs (with_shm (initialized c) (unlocked w0)) m);
    [now apply initialized_consistent|assumption..].
Qed.

(** ** reject! on a window it can handle

    [reject!] reads the samples in the order of [values] when [start] is
    0 or the window is full, and its removals move [start] as a push
    would as long as [start + 2 r ≤ length] for the [r] samples removed. *)

Lemma remove_fronts_start r : ∀ w,
  0 ≤ w_start w → w_start w + 2 * Z.of_nat r ≤ w_length w →
  w_start (remove_fronts r w) = w_start w + Z.of_nat r.
Proof.
  induction r as [|r IH]; intros w Hs Hr; cbn [remove_fronts]; [lia|].
  assert (Hfront : w_start (remove_front w) = w_start w + 1).
  { unfold remove_front. cbn [set_length set_start w_start].
    apply Z.mod_small. lia. }
  rewrite IH.
  - rewrite Hfront. lia.
  - lia.
  - rewrite Hfront. unfold remove_front. cbn [set_length w_length]. lia.
Qed.

Lemma reject_sample_sample w i :
  bounded w → w_start w = 0 ∨ w_length w = w_max_size w → 0 ≤ i < w_length w →
  reject_sample w i = sample w i.
Proof.
  intros [Hc Hl Hs He Hd] [Hz|Hfull] Hi; unfold reject_sample, sample.
  - rewrite Hz, !Z.mod_small by lia. reflexivity.
  - now rewrite Hfull.
Qed.

Lemma window_values_remove_fronts w r :
  bounded w → w_start w + 2 * Z.of_nat r ≤ w_length w →
  window_values (remove_fronts r w) = drop r (window_values w).
Proof.
  intros Hw Hr. pose proof Hw as [Hc Hl Hs He Hd].
  destruct (remove_fronts_kept r w) as (Hc' & _ & Hl').
  destruct (remove_fronts_bounded r w Hw) as (_ & _ & Hd'); [lia|].
  pose proof (remove_fronts_start r w) as Hs'.
  unfold window_values. rewrite Hl', <- fmap_drop.
  replace (w_length w) with (Z.of_nat r + (w_length w - Z.of_nat r)) at 2 by lia.
  rewrite seqZ_app by lia.
  rewrite drop_app_length' by (rewrite length_seqZ; lia).
  replace (0 + Z.of_nat r) with (Z.of_nat r + 0) by lia.
  rewrite <- (fmap_add_seqZ (Z.of_nat r) 0), <- list_fmap_compose.
  apply list_fmap_ext. intros j i Hi. apply lookup_seqZ in Hi as [-> Hj].
  unfold sample, compose. rewrite Hc', Hd', Hs' by lia.
  do 3 f_equal. lia.
Qed.

(** X14: on a window within its bounds whose [start] is 0 or which is
    full, a block that takes the [r] oldest samples and leaves the others
    makes [reject!] return with these [r] gone from the front of
    [values], provided [start + 2 r ≤ length]: [start] has advanced by
    [r], [length] has gone down by [r], the capacity, [end] and [data]
    are untouched, and [end], if it was at [(start + length) mod
    capacity], still is. *)
Theorem reject_removes_prefix blk w r :
  bounded w → w_start w = 0 ∨ w_length w = w_max_size w →
  w_start w + 2 * Z.of_nat r ≤ w_length w →
  (∀ i, 0 ≤ i < Z.of_nat r → accepts blk (sample w i) = true) →
  (∀ i, Z.of_nat r ≤ i < w_length w → refuses blk (sample w i) = true) →
  ∃ w',
    semian_simple_sliding_window_reject (Some blk) (unlocked w) =
      Done tt (unlocked w') ∧
    w' = {| w_max_size := w_max_size w; w_length := w_length w - Z.of_nat r;
            w_start := w_start w + Z.of_nat r; w_end := w_end w;
            w_data := w_data w |} ∧
    window_values w' = drop r (window_values w) ∧
    (w_end w = (w_start w + w_length w) `mod` w_max_size w →
     w_end w' = (w_start w' + w_length w') `mod` w_max_size w').
Proof.
  intros Hw Hfront Hr Hacc Href. pose proof Hw as [Hc Hl Hs He Hd].
  destruct (remove_fronts_kept r w) as (Hc' & He' & Hl').
  destruct (remove_fronts_bounded r w Hw) as (_ & _ & Hd'); [lia|].
  pose proof (remove_fronts_start r w ltac:(lia) Hr) as Hs'.
  exists (remove_fronts r w). split_and!.
  - apply reject_returns; [assumption|lia| |].
    + intros i Hi. rewrite reject_sample_sample by (assumption || lia). now apply Hacc.
    + intros i Hi. rewrite reject_sample_sample by (assumption || lia). now apply Href.
  - destruct (remove_fronts r w) as [cap' len' s' e' d'].
    cbn [w_max_size w_length w_start w_end w_data] in *. congruence.
  - now apply window_values_remove_fronts.
  - intros Hend. rewrite He', Hc', Hl', Hs', Hend.
    f_equal. lia.
Qed.

(** X15: on such a window, a block that takes the [r] oldest samples,
    leaves the next ones and takes sample [j] makes [reject!] raise the
    ArgumentError of a removal that is not monotonic, with the semaphore
    released and the [r] samples gone from the front of [values]. *)
Theorem reject_signals_gap blk w r j :
  bounded w → w_start w = 0 ∨ w_length w = w_max_size w →
  w_start w + 2 * Z.of_nat r ≤ w_length w →
  (r < j)%nat → Z.of_nat j < w_length w →
  (∀ i, 0 ≤ i < Z.of_nat r → accepts blk (sample w i) = true) →
  (∀ i, Z.of_nat r ≤ i < Z.of_nat j → refuses blk (sample w i) = true) →
  accepts blk (sample w (Z.of_nat j)) = true →
  ∃ w',
    semian_simple_sliding_window_reject (Some blk) (unlocked w) =
      Raised (rb_eArgError "reject! must delete monotonically") (unlocked w') ∧
    window_values w' = drop r (window_values w) ∧
    w_length w' = w_length w - Z.of_nat r.
Proof.
  intros Hw Hfront Hr Hrj Hj Hacc Href Hgap. pose proof Hw as [Hc Hl Hs He Hd].
  destruct (remove_fronts_kept r w) as (_ & _ & Hl').
  exists (remove_fronts r w). split_and!.
  - apply (reject_signals blk w r j); [assumption..| | |].
    + intros i Hi. rewrite reject_sample_sample by (assumption || lia). now apply Hacc.
    + intros i Hi. rewrite reject_sample_sample by (assumption || lia). now apply Href.
    + rewrite reject_sample_sample by (assumption || lia). assumption.
  - now apply window_values_remove_fronts.
  - assumption.
Qed.

(** X16: within the bounds, a block that answers false or nil on every
    sample [reject!] hands to it makes the call return with the window
    and the semaphore as they were; on an empty window this is every
    block, which is never called. *)
Theorem reject_none_taken blk w :
  bounded w →
  (∀ i, 0 ≤ i < w_length w → refuses blk (reject_sample w i) = true) →
  semian_simple_sliding_window_reject (Some blk) (unlocked w) = Done tt (unlocked w).
Proof.
  intros Hw Href. pose proof Hw as [Hc Hl Hs He Hd].
  apply (reject_returns blk w 0); [assumption|simpl; lia|intros i Hi; lia|].
  intros i Hi. apply Href. lia.
Qed.

(** ** The calls that only read *)

Lemma values_loop_reads n : ∀ i acc m,
  post (values_loop n i acc m) (λ _ m', m' = m) (λ _ _, False) (λ _, True).
Proof.
  induction n as [|n IH]; intros i acc m; cbn [values_loop]; [reflexivity|].
  repeat wp_step; try exact I. apply IH.
Qed.

(** X17: [size], [max_size], [values] and [last] write nothing to the
    segment: on any window, within its bounds or not, with the semaphore
    free, each of them returns with the segment and the semaphore as they
    were, or runs into undefined behaviour; none waits.  [size],
    [max_size] and [last] never raise; [values] raises exactly on a
    negative [length], the ArgumentError of [rb_ary_new_capa], and then
    leaves the segment as it was and the semaphore held. *)
Theorem readers_write_nothing w :
  post (semian_simple_sliding_window_size (unlocked w))
    (λ _ m', m' = unlocked w) (λ _ _, False) (λ _, True) ∧
  post (semian_simple_sliding_window_max_size (unlocked w))
    (λ _ m', m' = unlocked w) (λ _ _, False) (λ _, True) ∧
  post (semian_simple_sliding_window_values (unlocked w))
    (λ _ m', m' = unlocked w)
    (λ e m', w_length w < 0 ∧ m' = locked w ∧
             e = rb_eArgError "negative array size (or size too big)")
    (λ _, True) ∧
  (w_length w < 0 →
   semian_simple_sliding_window_values (unlocked w) =
     Raised (rb_eArgError "negative array size (or size too big)") (locked w)) ∧
  post (semian_simple_sliding_window_last (unlocked w))
    (λ _ m', m' = unlocked w) (λ _ _, False) (λ _, True).
Proof.
  split_and!.
  - reflexivity.
  - reflexivity.
  - unfold semian_simple_sliding_window_values.
    apply post_bind, post_sem_meta_lock; [reflexivity|].
    apply post_bind, post_rd, post_bind, post_rb_ary_new_capa.
    + intros _. apply post_bind.
      eapply post_weaken; [apply values_loop_reads|..]; cbv beta;
        [|contradiction|trivial].
      intros vs m' ->. repeat wp_step. reflexivity.
    + intros Hneg. split_and!; [exact Hneg|reflexivity|reflexivity].
  - intros Hneg. unfold semian_simple_sliding_window_values, unlocked, locked.
    run. unfold bind at 1. unfold rb_ary_new_capa.
    destruct (Z.ltb_spec (w_length w) 0); [reflexivity|lia].
  - unfold semian_simple_sliding_window_last.
    apply post_bind, post_sem_meta_lock; [reflexivity|].
    repeat wp_step; trivial; reflexivity.
Qed.

End Properties.

(** * The properties on concrete windows *)

(** ** Instances of the theorems *)

Lemma push_full_evicts_oldest_witness :
  semian_simple_sliding_window_push (Integer 7) (unlocked window_56) =
    Done tt (unlocked
      {| w_max_size := 2; w_length := 2 - 1 + 1; w_start := (1 + 1) `mod` 2;
         w_end := (1 + 1) `mod` 2;
         w_data := <[Z.to_nat 1 := 7]> [6; 5; 0; 0; 0; 0; 0; 0] |})
  ∧ ∃ m,
      perform_all 8 (Initialize (Integer 2) :: pushes [1; 2; 3]) (unlocked segment) =
        Done tt m ∧
      semian_simple_sliding_window_values m = Done (Integer <$> drop 1 [1; 2; 3]) m.
Proof.
  apply (push_full_evicts_oldest 8);
    [lia|split; simpl; lia|reflexivity|reflexivity|reflexivity|lia
    |repeat constructor|reflexivity].
Defined.

Lemma values_in_logical_order_witness :
  ∃ vs,
    semian_simple_sliding_window_values (unlocked window_34) =
      Done vs (unlocked window_34) ∧
    Z.of_nat (length vs) = 2 ∧
    ∀ i, 0 ≤ i < 2 →
      ∃ x, [4; 0; 3; 0; 0; 0; 0; 0] !! Z.to_nat ((2 + i) `mod` 3) = Some x ∧
           vs !! Z.to_nat i = Some (Integer x).
Proof.
  apply (values_in_logical_order 8 ltac:(lia) window_34).
  split; simpl; lia.
Defined.

Lemma last_is_last_of_values_witness :
  ∃ x vs,
    [4; 0; 3; 0; 0; 0; 0; 0] !! Z.to_nat ((2 + 2 - 1) `mod` 3) = Some x ∧
    semian_simple_sliding_window_last (unlocked window_34) =
      Done (Integer x) (unlocked window_34) ∧
    semian_simple_sliding_window_values (unlocked window_34) =
      Done vs (unlocked window_34) ∧
    vs !! Z.to_nat (2 - 1) = Some (Integer x).
Proof.
  apply (last_is_last_of_values 8 ltac:(lia) window_34);
    [split; simpl; lia|simpl; lia].
Defined.

Lemma length_within_capacity_witness :
  Forall (λ m', 0 ≤ w_length (shm m') ≤ w_max_size (shm m'))
    (states 8
       (Initialize (Integer 2) ::
        [Push (Integer 1); Reject (Some (block_of (λ _, true))); Push Object; Size])
       (unlocked segment))
  ∧ ∃ w',
      semian_simple_sliding_window_push (Integer 7) (unlocked window_56) =
        Done tt (unlocked w') ∧
      w_length w' = w_max_size w' ∧
      (1 = (1 + 2) `mod` 2 →
       window_values w' = drop 1 (window_values window_56) ++ [7] ∧
       w_end w' = (w_start w' + w_length w') `mod` w_max_size w').
Proof.
  apply (length_within_capacity 8);
    [lia|reflexivity|lia|split; simpl; lia|reflexivity|reflexivity].
Defined.

Lemma reject_divisors_positive_witness :
  reject_loop 2 (block_of (λ _, true)) (reject_entry window_123) (locked window_123) =
    Done {| l_start := 0; l_length := 3; l_cleared := 2; l_i := 2 |}
      (locked window_123_twice) ∧
  1 ≤ l_length {| l_start := 0; l_length := 3; l_cleared := 2; l_i := 2 |} ∧
  1 ≤ w_length (shm (locked window_123_twice)).
Proof.
  split; [reflexivity|].
  apply (proj2 reject_divisors_positive (block_of (λ _, true)) window_123 2%nat);
    [simpl; lia|reflexivity].
Defined.

(** On [1, 2, 3] the block that raises on 3 takes 1 and 2, and raises in
    the third turn, when the window has one sample left: it is handed
    [data[(0 + 2) % 3]]. *)
Lemma reject_reads_with_entry_length_witness :
  reject_loop 2 (raising_on 3) (reject_entry window_123) (locked window_123) =
    Done {| l_start := 0; l_length := 3; l_cleared := 2; l_i := 2 |}
      (locked window_123_twice) ∧
  0 ≤ 2 ≤ 2 ∧
  w_length (shm (locked window_123_twice)) = 3 - 2 ∧
  reject_iteration (raising_on 3)
    {| l_start := 0; l_length := 3; l_cleared := 2; l_i := 2 |}
    (locked window_123_twice) =
    Raised rb_eStandardError (locked window_123_twice).
Proof.
  split; [reflexivity|].
  destruct (reject_reads_with_entry_length 8 ltac:(lia) (raising_on 3) window_123 2%nat
              {| l_start := 0; l_length := 3; l_cleared := 2; l_i := 2 |}
              (locked window_123_twice))
    as (_ & _ & _ & Hcleared & Hlength & Hturn); [simpl; lia|reflexivity|].
  split_and!; [apply Hcleared..|exact Hlength|].
  apply Hturn. split; simpl; lia.
Defined.

(** The test of section 8 of the specification: [x < 3] removes 1 and 2
    from [1, 2, 3, 4, 5] and leaves [3, 4, 5]. *)
Example reject_prefix :
  perform_all 8
    (Initialize (Integer 5) :: pushes [1; 2; 3; 4; 5] ++
     [Reject (Some (block_of (λ x, x <? 3)))])
    (unlocked segment) =
    Done tt (unlocked {| w_max_size := 5; w_length := 3; w_start := 2; w_end := 0;
                         w_data := [1; 2; 3; 4; 5; 0; 0; 0] |}) ∧
  window_values {| w_max_size := 5; w_length := 3; w_start := 2; w_end := 0;
                   w_data := [1; 2; 3; 4; 5; 0; 0; 0] |} = [3; 4; 5].
Proof. split; reflexivity. Qed.

(** ** Where the code leaves the specification *)

(** C4, as stated, fails: were the sample of a turn read at a remainder
    modulo the length the window has in that turn, a block that raises
    in a turn would have raised on the sample at such an index.  On the
    window [1, 2, 3] the block that raises on 3 and takes 1 and 2 raises
    in the third turn, when the length of the window has gone down to 1;
    the only remainder modulo 1 is 0, and [data[0]] is 1, which the block
    takes. *)
Lemma reject_index_not_modulo_current_length :
  ¬ (∀ blk w k l m' e,
       bounded 8 w → (k < Z.to_nat (w_length w))%nat →
       reject_loop k blk (reject_entry w) (locked w) = Done l m' →
       reject_iteration blk l m' = Raised e m' →
       ∃ a, blk (RB_INT2NUM
                   (w_data (shm m') !!! Z.to_nat (a `mod` w_length (shm m')))) =
            Throws e).
Proof.
  intros H.
  destruct (H (raising_on 3) window_123 2%nat
              {| l_start := 0; l_length := 3; l_cleared := 2; l_i := 2 |}
              (locked window_123_twice) rb_eStandardError)
    as [a Ha]; [split; simpl; lia|simpl; lia|reflexivity|reflexivity|].
  cbn [locked shm w_length w_data window_123_twice] in Ha.
  rewrite Z.mod_1_r in Ha. discriminate Ha.
Qed.

(** C5: after a [reject!] that empties the window [1, 2] of capacity 3
    and leaves [end] at 2, the pushes of 7, 8 and 9 fill the window, which
    [values] lists as [8, 9, 7]; the push of 10 keeps it full and leaves
    [9, 10, 8]: the sample at the front, 8, is still there, and 7 is
    overwritten.  A push that removed the sample at the front would
    leave [9, 7, 10]. *)
Theorem push_after_reject_keeps_front :
  perform_all 8
    [Initialize (Integer 3); Push (Integer 1); Push (Integer 2);
     Reject (Some (block_of (λ _, true)));
     Push (Integer 7); Push (Integer 8); Push (Integer 9)]
    (unlocked segment) =
    Done tt (unlocked {| w_max_size := 3; w_length := 3; w_start := 0; w_end := 2;
                         w_data := [8; 9; 7; 0; 0; 0; 0; 0] |}) ∧
  semian_simple_sliding_window_values
    (unlocked {| w_max_size := 3; w_length := 3; w_start := 0; w_end := 2;
                 w_data := [8; 9; 7; 0; 0; 0; 0; 0] |}) =
    Done [Integer 8; Integer 9; Integer 7]
      (unlocked {| w_max_size := 3; w_length := 3; w_start := 0; w_end := 2;
                   w_data := [8; 9; 7; 0; 0; 0; 0; 0] |}) ∧
  semian_simple_sliding_window_push (Integer 10)
    (unlocked {| w_max_size := 3; w_length := 3; w_start := 0; w_end := 2;
                 w_data := [8; 9; 7; 0; 0; 0; 0; 0] |}) =
    Done tt (unlocked {| w_max_size := 3; w_length := 3; w_start := 1; w_end := 0;
                         w_data := [8; 9; 10; 0; 0; 0; 0; 0] |}) ∧
  semian_simple_sliding_window_values
    (unlocked {| w_max_size := 3; w_length := 3; w_start := 1; w_end := 0;
                 w_data := [8; 9; 10; 0; 0; 0; 0; 0] |}) =
    Done [Integer 9; Integer 10; Integer 8]
      (unlocked {| w_max_size := 3; w_length := 3; w_start := 1; w_end := 0;
                   w_data := [8; 9; 10; 0; 0; 0; 0; 0] |}).
Proof. split_and!; reflexivity. Qed.

(** C2: a [reject!] that removes both samples of [1, 2] in a window of
    capacity 3 returns with [start = 0], [length = 0] and [end = 2]; one
    that removes 1, 2, 3 of [1, 2, 3, 4, 5] and then meets 5 raises with
    [start = 0], [length = 2] and [end = 0]. *)
Theorem reject_leaves_end_behind :
  (perform_all 8
     [Initialize (Integer 3); Push (Integer 1); Push (Integer 2);
      Reject (Some (block_of (λ _, true)))]
     (unlocked segment) =
     Done tt (unlocked {| w_max_size := 3; w_length := 0; w_start := 0; w_end := 2;
                          w_data := [1; 2; 0; 0; 0; 0; 0; 0] |}) ∧
   2 ≠ (0 + 0) `mod` 3) ∧
  (perform_all 8
     (Initialize (Integer 5) :: pushes [1; 2; 3; 4; 5] ++
      [Reject (Some (block_of (λ x, negb (x =? 4))))])
     (unlocked segment) =
     Raised (rb_eArgError "reject! must delete monotonically")
       (unlocked {| w_max_size := 5; w_length := 2; w_start := 0; w_end := 0;
                    w_data := [1; 2; 3; 4; 5; 0; 0; 0] |}) ∧
   0 ≠ (0 + 2) `mod` 5).
Proof. split_and!; try reflexivity; discriminate. Qed.

(** C3: in a window of capacity 8 that holds [1, 2, 3, 4, 5] from
    [start = 4] on, [reject!] with the block [x == 1 or x == 3] returns
    without an exception and leaves [5, 0, 0, 0]. *)
Theorem reject_misses_gap :
  perform_all 8
    (Initialize (Integer 8) :: pushes [0; 0; 0; 0; 1; 2; 3; 4] ++
     [Reject (Some (block_of (Z.eqb 0))); Push (Integer 5)])
    (unlocked segment) =
    Done tt (unlocked {| w_max_size := 8; w_length := 5; w_start := 4; w_end := 1;
                         w_data := [5; 0; 0; 0; 1; 2; 3; 4] |}) ∧
  semian_simple_sliding_window_values
    (unlocked {| w_max_size := 8; w_length := 5; w_start := 4; w_end := 1;
                 w_data := [5; 0; 0; 0; 1; 2; 3; 4] |}) =
    Done [Integer 1; Integer 2; Integer 3; Integer 4; Integer 5]
      (unlocked {| w_max_size := 8; w_length := 5; w_start := 4; w_end := 1;
                   w_data := [5; 0; 0; 0; 1; 2; 3; 4] |}) ∧
  semian_simple_sliding_window_reject
    (Some (block_of (λ x, (x =? 1) || (x =? 3))))
    (unlocked {| w_max_size := 8; w_length := 5; w_start := 4; w_end := 1;
                 w_data := [5; 0; 0; 0; 1; 2; 3; 4] |}) =
    Done tt (unlocked {| w_max_size := 8; w_length := 4; w_start := 0; w_end := 1;
                         w_data := [5; 0; 0; 0; 1; 2; 3; 4] |}) ∧
  semian_simple_sliding_window_values
    (unlocked {| w_max_size := 8; w_length := 4; w_start := 0; w_end := 1;
                 w_data := [5; 0; 0; 0; 1; 2; 3; 4] |}) =
    Done [Integer 5; Integer 0; Integer 0; Integer 0]
      (unlocked {| w_max_size := 8; w_length := 4; w_start := 0; w_end := 1;
                   w_data := [5; 0; 0; 0; 1; 2; 3; 4] |}).
Proof. split_and!; reflexivity. Qed.

(** C8: [last] on a fresh window of capacity 2 reads [data[-1]]. *)
Theorem last_on_empty_reads_before_data :
  perform_all 8 [Initialize (Integer 2)] (unlocked segment) =
    Done tt (unlocked {| w_max_size := 2; w_length := 0; w_start := 0; w_end := 0;
                         w_data := replicate 8 0 |}) ∧
  semian_simple_sliding_window_last
    (unlocked {| w_max_size := 2; w_length := 0; w_start := 0; w_end := 0;
                 w_data := replicate 8 0 |}) =
    Undefined (OutOfBounds (-1)).
Proof. split; reflexivity. Qed.

(** C9: a push whose argument does not convert, and a [reject!] whose
    block raises, leave by the exception with the semaphore held, and
    the next call waits; the raise of [reject!] itself comes after the
    release. *)
Theorem raise_with_semaphore_held :
  perform_all 8 [Initialize (Integer 2); Push Object] (unlocked segment) =
    Raised rb_eTypeError
      (locked {| w_max_size := 2; w_length := 1; w_start := 0; w_end := 0;
                 w_data := replicate 8 0 |}) ∧
  perform_all 8 [Initialize (Integer 2); Push (Integer 2147483648)] (unlocked segment) =
    Raised rb_eRangeError
      (locked {| w_max_size := 2; w_length := 1; w_start := 0; w_end := 0;
                 w_data := replicate 8 0 |}) ∧
  perform_all 8
    [Initialize (Integer 2); Push (Integer 1); Reject (Some raising_block)]
    (unlocked segment) =
    Raised rb_eStandardError
      (locked {| w_max_size := 2; w_length := 1; w_start := 0; w_end := 1;
                 w_data := [1; 0; 0; 0; 0; 0; 0; 0] |}) ∧
  semian_simple_sliding_window_size
    (locked {| w_max_size := 2; w_length := 1; w_start := 0; w_end := 1;
               w_data := [1; 0; 0; 0; 0; 0; 0; 0] |}) = Blocked ∧
  perform_all 8
    (Initialize (Integer 5) :: pushes [1; 2; 3; 4; 5] ++
     [Reject (Some (block_of (λ x, (x =? 1) || (x =? 3))))])
    (unlocked segment) =
    Raised (rb_eArgError "reject! must delete monotonically")
      (unlocked {| w_max_size := 5; w_length := 4; w_start := 1; w_end := 0;
                   w_data := [1; 2; 3; 4; 5; 0; 0; 0] |}).
Proof. split_and!; reflexivity. Qed.

(** ** Instances of the further properties *)

Lemma check_max_size_arg_accepts_witness :
  check_max_size_arg 8 (Float double_2_5) (unlocked segment) = Done 2 (unlocked segment).
Proof.
  apply (proj1 (check_max_size_arg_accepts 8 ltac:(lia) (Float double_2_5)
                  (unlocked segment))).
  split_and!; [reflexivity|lia|lia|].
  right; right; left. exists double_2_5. split; reflexivity.
Defined.

Lemma initialize_discards_samples_witness :
  ∃ m',
    semian_simple_sliding_window_initialize 8 (Integer 2) (locked window_123) =
      Done tt m' ∧
    sem_held m' = sem_held (locked window_123) ∧
    shm m' = {| w_max_size := 2; w_length := 0; w_start := 0; w_end := 0;
                w_data := w_data (shm (locked window_123)) |} ∧
    (sem_held (locked window_123) = false →
     semian_simple_sliding_window_size m' = Done (Integer 0) m' ∧
     semian_simple_sliding_window_values m' = Done [] m').
Proof. apply (initialize_discards_samples 8 ltac:(lia) 2 (locked window_123)). lia. Defined.

Lemma initialize_refuses_capacity_witness :
  semian_simple_sliding_window_initialize 8 (Float double_9_5) (unlocked window_123) =
    Raised (rb_eArgError "max_size cannot be greater than 8") (unlocked window_123).
Proof.
  apply (proj1 (proj2 (proj2 (initialize_refuses_capacity 8 (Float double_9_5)
                                (unlocked window_123)))) 9);
    [reflexivity|lia|lia].
Defined.

Lemma clear_then_push_witness :
  ∃ w1 w2,
    semian_simple_sliding_window_clear (unlocked window_123) = Done tt (unlocked w1) ∧
    w1 = {| w_max_size := 3; w_length := 0; w_start := 0; w_end := 0;
            w_data := [1; 2; 3; 0; 0; 0; 0; 0] |} ∧
    semian_simple_sliding_window_size (unlocked w1) = Done (Integer 0) (unlocked w1) ∧
    semian_simple_sliding_window_values (unlocked w1) = Done [] (unlocked w1) ∧
    semian_simple_sliding_window_push (Integer 7) (unlocked w1) =
      Done tt (unlocked w2) ∧
    semian_simple_sliding_window_values (unlocked w2) =
      Done [Integer 7] (unlocked w2) ∧
    semian_simple_sliding_window_last (unlocked w2) =
      Done (Integer 7) (unlocked w2).
Proof.
  apply (clear_then_push 8 ltac:(lia) window_123 7);
    [split; simpl; lia|reflexivity].
Defined.

Lemma values_keep_latest_witness :
  ∃ m,
    perform_all 8 (Initialize (Integer 3) :: pushes [1; 2; 3; 4; 5]) (unlocked segment) =
      Done tt m ∧
    semian_simple_sliding_window_values m =
      Done (Integer <$> drop (length [1; 2; 3; 4; 5] - Z.to_nat 3) [1; 2; 3; 4; 5]) m ∧
    semian_simple_sliding_window_size m =
      Done (Integer (Z.min (Z.of_nat (length [1; 2; 3; 4; 5])) 3)) m.
Proof.
  apply (values_keep_latest 8 ltac:(lia) segment 3 [1; 2; 3; 4; 5]);
    [reflexivity|lia|repeat constructor].
Defined.

Lemma push_then_last_witness :
  (semian_simple_sliding_window_push (Integer 7) >>
   semian_simple_sliding_window_last) (unlocked window_56) =
    Done (Integer 7) (unlocked (pushed 7 window_56)).
Proof.
  apply (push_then_last 8 ltac:(lia) window_56 7);
    [split; [split; simpl; lia|reflexivity]|reflexivity].
Defined.

Lemma push_appends_below_capacity_witness :
  ∃ w',
    semian_simple_sliding_window_push (Integer 5) (unlocked window_34) =
      Done tt (unlocked w') ∧
    window_values w' = window_values window_34 ++ [5] ∧
    w_length w' = w_length window_34 + 1 ∧ w_start w' = w_start window_34 ∧
    w_end w' = (w_start w' + w_length w') `mod` w_max_size w'.
Proof.
  apply (push_appends_below_capacity 8 ltac:(lia) window_34 5);
    [split; [split; simpl; lia|reflexivity]|simpl; lia|reflexivity].
Defined.

Lemma push_accepts_ints_witness :
  semian_simple_sliding_window_push (Float double_1_5) (unlocked window_34) =
    Done tt (unlocked {| w_max_size := 3; w_length := 3; w_start := 2; w_end := 2;
                         w_data := [4; 1; 3; 0; 0; 0; 0; 0] |}).
Proof.
  apply (push_accepts_ints 8 ltac:(lia) window_34 (Float double_1_5));
    [split; simpl; lia|].
  exists 1. split_and!; [|unfold INT_MIN; lia|unfold INT_MAX; lia|reflexivity].
  right; left. exists double_1_5. split; reflexivity.
Defined.

Lemma semaphore_free_after_return_witness :
  perform 8 Values (locked window_123) = Blocked.
Proof.
  apply (proj1 (semaphore_free_after_return 8 Values window_123));
    [reflexivity|discriminate].
Defined.

Lemma calls_are_defined_witness :
  perform 8 Last (unlocked window_34) ≠ Undefined (OutOfBounds (-1)) ∧
  perform 8 (Initialize (Float double_2_5)) (unlocked window_34) ≠ Undefined FloatToInt.
Proof.
  split.
  - apply (calls_are_defined 8 ltac:(lia) Last (unlocked window_34));
      [split; simpl; lia|intros _; simpl; lia|intros d [=]].
  - apply (calls_are_defined 8 ltac:(lia) (Initialize (Float double_2_5))
             (unlocked window_34));
      [split; simpl; lia|intros [=]|intros d [= <-]; discriminate].
Defined.

Lemma max_size_is_initial_capacity_witness :
  semian_simple_sliding_window_max_size
    (unlocked {| w_max_size := 3; w_length := 0; w_start := 0; w_end := 0;
                 w_data := [1; 2; 0; 0; 0; 0; 0; 0] |}) =
    Done (Integer 3)
      (unlocked {| w_max_size := 3; w_length := 0; w_start := 0; w_end := 0;
                   w_data := [1; 2; 0; 0; 0; 0; 0; 0] |}).
Proof.
  apply (max_size_is_initial_capacity 8 ltac:(lia) segment 3
           [Push (Integer 1); Push (Integer 2); Clear]);
    [reflexivity|lia|reflexivity|reflexivity].
Defined.

Lemma calls_keep_end_in_place_witness :
  bounded 8 (shm (unlocked {| w_max_size := 3; w_length := 3; w_start := 1; w_end := 1;
                              w_data := [4; 2; 3; 0; 0; 0; 0; 0] |})) ∧
  1 = (1 + 3) `mod` 3.
Proof.
  apply (calls_keep_end_in_place 8 ltac:(lia) segment 3
           (pushes [1; 2; 3; 4] ++ [Values; Last])
           (unlocked {| w_max_size := 3; w_length := 3; w_start := 1; w_end := 1;
                        w_data := [4; 2; 3; 0; 0; 0; 0; 0] |}));
    [reflexivity|lia|reflexivity|reflexivity].
Defined.

Lemma reject_removes_prefix_witness :
  ∃ w',
    semian_simple_sliding_window_reject (Some (block_of (λ x, x =? 1)))
      (unlocked window_123) = Done tt (unlocked w') ∧
    w' = {| w_max_size := 3; w_length := 3 - 1; w_start := 0 + 1; w_end := 0;
            w_data := [1; 2; 3; 0; 0; 0; 0; 0] |} ∧
    window_values w' = drop 1 (window_values window_123) ∧
    (w_end window_123 =
       (w_start window_123 + w_length window_123) `mod` w_max_size window_123 →
     w_end w' = (w_start w' + w_length w') `mod` w_max_size w').
Proof.
  apply (reject_removes_prefix 8 ltac:(lia) (block_of (λ x, x =? 1)) window_123 1).
  - split; simpl; lia.
  - left; reflexivity.
  - simpl; lia.
  - intros i Hi. assert (i = 0) as -> by lia. reflexivity.
  - intros i Hi. simpl in Hi. assert (i = 1 ∨ i = 2) as [-> | ->] by lia; reflexivity.
Defined.

Lemma reject_signals_gap_witness :
  ∃ w',
    semian_simple_sliding_window_reject
      (Some (block_of (λ x, (x =? 1) || (x =? 3)))) (unlocked window_123) =
      Raised (rb_eArgError "reject! must delete monotonically") (unlocked w') ∧
    window_values w' = drop 1 (window_values window_123) ∧
    w_length w' = w_length window_123 - Z.of_nat 1.
Proof.
  apply (reject_signals_gap 8 ltac:(lia) (block_of (λ x, (x =? 1) || (x =? 3)))
           window_123 1 2).
  - split; simpl; lia.
  - left; reflexivity.
  - simpl; lia.
  - lia.
  - simpl; lia.
  - intros i Hi. assert (i = 0) as -> by lia. reflexivity.
  - intros i Hi. assert (i = 1) as -> by lia. reflexivity.
  - reflexivity.
Defined.

Lemma reject_none_taken_witness :
  semian_simple_sliding_window_reject (Some (block_of (λ x, x =? 9)))
    (unlocked window_34) = Done tt (unlocked window_34).
Proof.
  apply (reject_none_taken 8 ltac:(lia) (block_of (λ x, x =? 9)) window_34).
  - split; simpl; lia.
  - intros i Hi. simpl in Hi. assert (i = 0 ∨ i = 1) as [-> | ->] by lia; reflexivity.
Defined.
